(** * VTUHUB-Python: CAPTCHA cleaning, OCR post-processing and the
      fetch/solve/submit retry loop, embedded in Rocq.

    The development follows the layout of the Python sources:
    - [Py]          the Python [str] primitives the sources rely on;
    - [Gray]        [services/Gray.py], the image cleaner [clean_captcha];
    - [TrOCR]       [services/TrOCR.py], the recognizer and its post-processing;
    - [TrOCRRunner] [services/trocr_mp.py], the batch runner and its symbol map;
    - [Scraper]     [services/mainclass.py], [VTUScraper.run] and the retry loop.

    Definitions come first; the theorems about them follow in the
    modules whose names end in [Facts]. *)

From Stdlib Require Import ZArith NArith QArith Lia Lqa List String Ascii.
From stdpp Require Import base list gmap strings.

(** A Python [str] is a sequence of Unicode code points. *)
Abbreviation char := N (only parsing).
Abbreviation str := (list N) (only parsing).

(** * Python string primitives *)
Module Py.

(** A string literal of the source, as code points (ASCII literals only). *)
Definition u (s : string) : str :=
  (fun a => N_of_ascii a) <$> list_ascii_of_string s.

(** What a Python call yields: a value, or a raised exception, of which
    only [str(e)] is ever observed by the sources. *)
Inductive outcome (A : Type) : Type :=
| Ok (a : A)
| Raise (e : str).
Arguments Ok {A} a.
Arguments Raise {A} e.

(** [s.startswith(pre)] *)
Fixpoint startswith (pre s : str) : bool :=
  match pre, s with
  | [], _ => true
  | _ :: _, [] => false
  | p :: pre', c :: s' => if decide (p = c) then startswith pre' s' else false
  end.

(** [sub in s] for two strings: substring search. *)
Fixpoint contains (sub s : str) : bool :=
  startswith sub s ||
  match s with
  | [] => false
  | _ :: s' => contains sub s'
  end.

(** [c.isspace()] for one code point, as CPython's [_PyUnicode_IsWhitespace]. *)
Definition isspace (c : char) : bool :=
  ((9 <=? c) && (c <=? 13) || (28 <=? c) && (c <=? 32) ||
   (c =? 133) || (c =? 160) || (c =? 5760) ||
   (8192 <=? c) && (c <=? 8202) || (c =? 8232) || (c =? 8233) ||
   (c =? 8239) || (c =? 8287) || (c =? 12288))%N.

(** [s.lstrip()], [s.rstrip()], [s.strip()] *)
Fixpoint lstrip_by (p : char -> bool) (s : str) : str :=
  match s with
  | [] => []
  | c :: s' => if p c then lstrip_by p s' else s
  end.

Definition rstrip_by (p : char -> bool) (s : str) : str :=
  rev (lstrip_by p (rev s)).

Definition strip_by (p : char -> bool) (s : str) : str :=
  rstrip_by p (lstrip_by p s).

Definition strip (s : str) : str := strip_by isspace s.

(** [s.strip(chars)] *)
Definition strip_chars (chars s : str) : str :=
  strip_by (fun c => bool_decide (c ∈ chars)) s.

(** A character of the class [p], and the class of [strip("/")]. *)
Definition holds (p : char -> bool) (c : char) : Prop := p c = true.

Definition is_slash (c : char) : bool := bool_decide (c ∈ u "/").

(** [s.split()]: the maximal runs of non-whitespace, in order.  [cur] is
    the run being read, reversed. *)
Fixpoint split_from (cur : str) (s : str) : list str :=
  match s with
  | [] => match cur with [] => [] | _ :: _ => [rev cur] end
  | c :: s' =>
      if isspace c
      then match cur with
           | [] => split_from [] s'
           | _ :: _ => rev cur :: split_from [] s'
           end
      else split_from (c :: cur) s'
  end.

Definition split (s : str) : list str := split_from [] s.

(** [sep.join(parts)] *)
Fixpoint join (sep : str) (parts : list str) : str :=
  match parts with
  | [] => []
  | [p] => p
  | p :: ps => p ++ sep ++ join sep ps
  end.

(** [s.replace(old, new)] where [old] is a single character, which is the
    only way the sources call it. *)
Definition replace1 (old : char) (new : str) (s : str) : str :=
  s ≫= (fun c => if decide (c = old) then new else [c]).

(** [s.translate(table)] for a table built by [str.maketrans(dict)]: a
    mapped character is replaced by its image (possibly empty), an
    unmapped one is kept. *)
Definition translate (table : gmap N (list N)) (s : str) : str :=
  s ≫= (fun c => match table !! c with Some r => r | None => [c] end).

End Py.

(** * services/Gray.py *)
Module Gray.
Import Py.

(** A two-dimensional numpy array, as its list of rows.  Every array the
    code builds is rectangular: [rect h w a] says its shape is [(h, w)]. *)
Abbreviation ndarray := (list (list Z)) (only parsing).

Definition rect (h w : nat) (a : ndarray) : Prop :=
  length a = h ∧ Forall (fun r => length r = w) a.

(** [a.shape] of a non-empty array. *)
Definition shape (a : ndarray) : nat * nat :=
  (length a, match a with [] => 0%nat | r :: _ => length r end).

(** [a[i, j]] *)
Definition get2 (a : ndarray) (i j : nat) : option Z :=
  a !! i ≫= (fun r : list Z => r !! j).

(** [a[i, j] = v] *)
Definition set2 (a : ndarray) (i j : nat) (v : Z) : ndarray :=
  alter (fun r : list Z => <[j := v]> r) i a.

(** An operation applied to every element, as numpy's ufuncs do. *)
Definition elementwise (g : Z -> Z) (a : ndarray) : ndarray :=
  (fun r : list Z => g <$> r) <$> a.

(** [a.astype(np.uint8)] on integer data. *)
Definition astype_uint8 (a : ndarray) : ndarray :=
  elementwise (fun v => v mod 256)%Z a.

(** [a.sum()].  numpy accumulates the sum of a window in a 64-bit
    integer, and the sum inside [a.mean()] in binary64, where integers
    below 2^53 add without error: both are the exact sum. *)
Definition sum_row (r : list Z) : Z := foldr Z.add 0%Z r.
Definition np_sum (a : ndarray) : Z := foldr (fun r acc => (sum_row r + acc)%Z) 0%Z a.

(** [a.size] *)
Definition np_size (a : ndarray) : nat := length (concat a).

(** numpy evaluates the threshold in binary64, where every operation
    yields the rounding of its exact result.  The embedding computes in
    the rationals and takes the rounding [rnd] as a parameter;
    [binary64_rounding] states what is used of it: it is monotone, and
    it leaves unchanged the numbers [z / 2^j] with [|z| <= 2^53] (and
    [j <= 60]), which binary64 represents. *)
Definition binary64_rounding (rnd : Q -> Q) : Prop :=
  (∀ x y, (x <= y)%Q → (rnd x <= rnd y)%Q) ∧
  (∀ (z : Z) (j : nat),
     (Z.abs z <= 2 ^ 53)%Z → (j <= 60)%nat →
     (rnd (inject_Z z / inject_Z (2 ^ Z.of_nat j)) ==
      inject_Z z / inject_Z (2 ^ Z.of_nat j))%Q).

(** Arithmetic without rounding. *)
Definition exact (x : Q) : Q := x.

(** [a.mean()]: the sum of the elements, which numpy accumulates in
    binary64 (an integer below 2^53, hence without error), over their
    number. *)
Definition np_mean (rnd : Q -> Q) (a : ndarray) : Q :=
  rnd (inject_Z (np_sum a) / inject_Z (Z.of_nat (np_size a)))%Q.

(** [a.min()], which raises [ValueError] on an array without elements. *)
Definition min_list (l : list Z) : option Z :=
  match l with
  | [] => None
  | x :: l' => Some (foldr Z.min x l')
  end.

Definition np_min (a : ndarray) : outcome Z :=
  match min_list (concat a) with
  | Some m => Ok m
  | None =>
      Raise (u "zero-size array to reduction operation minimum which has no identity")
  end.

(** [x < t] for an array element and the scalar threshold. *)
Definition Qltb (x y : Q) : bool :=
  (Qnum x * QDen y <? Qnum y * QDen x)%Z.

(** [(arr < threshold).astype(np.uint8) * 255] *)
Definition binarize (arr : ndarray) (threshold : Q) : ndarray :=
  elementwise (fun p => (Z.b2z (Qltb (inject_Z p) threshold) * 255) mod 256)%Z arr.

(** [(binary == 255).astype(np.uint8)] *)
Definition to_mask (binary : ndarray) : ndarray :=
  elementwise (fun b => Z.b2z (b =? 255)%Z) binary.

(** [np.pad(mask, 1, mode='constant', constant_values=0)] *)
Definition np_pad1 (mask : ndarray) : ndarray :=
  let z := replicate (snd (shape mask) + 2) 0%Z in
  z :: ((fun r : list Z => 0%Z :: r ++ [0%Z]) <$> mask) ++ [z].

(** [np.zeros_like(mask)] *)
Definition zeros_like (mask : ndarray) : ndarray :=
  elementwise (fun _ => 0%Z) mask.

(** [pad[i:i+3, j:j+3]] *)
Definition window (pad : ndarray) (i j : nat) : ndarray :=
  (fun r : list Z => take 3 (drop j r)) <$> take 3 (drop i pad).

(** The value the loop body stores at [(i, j)]. *)
Definition vote (pad : ndarray) (i j : nat) : Z :=
  if (5 <=? np_sum (window pad i j))%Z then 1%Z else 0%Z.

(** Step 5, the two nested [for] loops writing into [out_mask]. *)
Definition majority_filter (mask : ndarray) : ndarray :=
  let pad := np_pad1 mask in
  let '(h, w) := shape mask in
  foldl (fun out i =>
           foldl (fun out j => set2 out i j (vote pad i j)) out (seq 0 w))
        (zeros_like mask) (seq 0 h).

(** [np.where(out_mask == 1, 0, 255).astype(np.uint8)] *)
Definition render (out_mask : ndarray) : ndarray :=
  elementwise (fun m => (if (m =? 1)%Z then 0 else 255) mod 256)%Z out_mask.

(** [(arr.mean() + arr.min()) / 2] *)
Definition threshold_of (rnd : Q -> Q) (arr : ndarray) : outcome Q :=
  match np_min arr with
  | Ok m => Ok (rnd (rnd (np_mean rnd arr + inject_Z m) / 2))%Q
  | Raise e => Raise e
  end.

(** The same expression in exact arithmetic, the threshold in the words
    of the specification. *)
Definition spec_threshold (arr : ndarray) (m : Z) : Q :=
  ((inject_Z (sum_row (concat arr)) / inject_Z (Z.of_nat (length (concat arr)))
    + inject_Z m) / 2)%Q.

(** Steps 3 to 6 of [clean_captcha], on the array [arr] of the smoothed
    grayscale image. *)
Definition clean_array (rnd : Q -> Q) (arr : ndarray) : outcome ndarray :=
  match threshold_of rnd arr with
  | Raise e => Raise e
  | Ok threshold =>
      let binary := binarize arr threshold in
      let mask := to_mask binary in
      let out_mask := majority_filter mask in
      Ok (render out_mask)
  end.

(** ** The majority vote in the words of the specification *)

(** [r[j]] and [a[i, j]], read as background (0) outside the array. *)
Definition at0 (r : list Z) (j : nat) : Z := default 0%Z (r !! j).
Definition at2 (a : ndarray) (i j : nat) : Z := default 0%Z (get2 a i j).

(** The mask padded by one pixel of background on every side, at the
    padded coordinates [(a, b)]: the pixel [(i, j)] of the mask sits at
    [(i + 1, j + 1)]. *)
Definition padded (mask : ndarray) (a b : nat) : Z :=
  match a, b with
  | S a', S b' => at2 mask a' b'
  | _, _ => 0%Z
  end.

(** The nine samples of the 3x3 neighbourhood of the pixel [(i, j)] in
    the padded mask, row by row; the fifth is the pixel itself. *)
Definition neighbourhood (mask : ndarray) (i j : nat) : list Z :=
  [ padded mask i j; padded mask i (j + 1); padded mask i (j + 2);
    padded mask (i + 1) j; padded mask (i + 1) (j + 1); padded mask (i + 1) (j + 2);
    padded mask (i + 2) j; padded mask (i + 2) (j + 1); padded mask (i + 2) (j + 2) ].

(** The number of foreground pixels among them. *)
Definition foreground_count (mask : ndarray) (i j : nat) : Z :=
  Z.of_nat (length (List.filter (fun v => (v =? 1)%Z) (neighbourhood mask i j))).

(** An array of 8-bit samples. *)
Definition is_uint8 (a : ndarray) : Prop :=
  Forall (Forall (fun v => (0 <= v <= 255)%Z)) a.

(** A mask holds only 0 (background) and 1 (foreground). *)
Definition is_mask (a : ndarray) : Prop :=
  Forall (Forall (fun v => v = 0%Z ∨ v = 1%Z)) a.

Section clean_captcha.

(** The PIL side of [clean_captcha], which is library code: an image
    type, [ImageOps.grayscale], the 3x3 [MedianFilter] and [np.array] of
    a single-channel image; and the rounding of binary64. *)
Context {image : Type}.
Variable rnd : Q -> Q.
Variable grayscale : image -> image.
Variable median_filter3 : image -> image.
Variable np_array : image -> ndarray.

(** [clean_captcha].  The source wraps the final array by
    [Image.fromarray]; the embedding returns the array, which is the
    pixel grid of that image. *)
Definition clean_captcha (img : image) : outcome ndarray :=
  let gray := grayscale img in
  let gray := median_filter3 gray in
  let arr := astype_uint8 (np_array gray) in
  clean_array rnd arr.

End clean_captcha.

(** What the cleaner relies on from PIL: the array of the smoothed
    grayscale image has the height and the width of the input image. *)
Definition pil_contract {image : Type} (size : image -> nat * nat)
    (grayscale median_filter3 : image -> image)
    (np_array : image -> ndarray) : Prop :=
  ∀ img, rect (snd (size img)) (fst (size img))
              (np_array (median_filter3 (grayscale img))).

(** A concrete single-channel image, PIL's mode "L": a size and a flat
    buffer of samples, row after row.  [grayscale] leaves such an image
    as it is, and the median filter replicates the border (PIL expands
    the image by its edge pixels before ranking). *)
Module L.

Record image := Image {
  width : nat;
  height : nat;
  data : list Z
}.

Definition size (img : image) : nat * nat := (width img, height img).

Definition getpixel (img : image) (x y : nat) : Z :=
  default 0%Z (data img !! (y * width img + x)%nat).

Definition grayscale (img : image) : image := img.

(** Insertion sort, to take the rank-4 element of nine samples. *)
Fixpoint insert_sorted (x : Z) (l : list Z) : list Z :=
  match l with
  | [] => [x]
  | y :: l' => if (x <=? y)%Z then x :: l else y :: insert_sorted x l'
  end.

Definition sort (l : list Z) : list Z := foldr insert_sorted [] l.

(** The sample at [(x, y)] of the image expanded by one replicated pixel:
    coordinates are clamped into the image. *)
Definition clamp (n : nat) (k : Z) : nat :=
  Z.to_nat (Z.max 0 (Z.min (Z.of_nat n - 1) k)).

Definition at_clamped (img : image) (x y : Z) : Z :=
  getpixel img (clamp (width img) x) (clamp (height img) y).

Definition median_at (img : image) (x y : nat) : Z :=
  let zx := Z.of_nat x in
  let zy := Z.of_nat y in
  let samples :=
    (fun d : Z * Z => at_clamped img (zx + fst d) (zy + snd d))%Z <$>
    [(-1, -1); (0, -1); (1, -1); (-1, 0); (0, 0); (1, 0); (-1, 1); (0, 1); (1, 1)]%Z in
  default 0%Z (sort samples !! 4%nat).

Definition median_filter3 (img : image) : image :=
  {| width := width img;
     height := height img;
     data := seq 0 (height img) ≫= (fun y =>
               (fun x => median_at img x y) <$> seq 0 (width img)) |}.

Definition np_array (img : image) : ndarray :=
  (fun y => (fun x => getpixel img x y) <$> seq 0 (width img)) <$>
  seq 0 (height img).

End L.

End Gray.

(** * services/TrOCR.py *)
Module TrOCR.
Import Py.

(** The last two statements of [run_ocr]:
    every full stop is replaced by the empty string, then the result of
    [split()] is joined with the empty separator. *)
Definition postprocess (text : str) : str :=
  let ctext := replace1 46%N [] text in
  join [] (split ctext).

Section run_ocr.

(** [clean] is [clean_captcha] (ENABLE_CLEAN is the constant True), and
    [recognize] stands for the processor, [model.generate] and
    [batch_decode], applied to the cleaned image. *)
Context {image : Type}.
Variable clean : image -> outcome (list (list Z)).
Variable recognize : list (list Z) -> str.

Definition run_ocr (img : image) : outcome str :=
  match clean img with
  | Raise e => Raise e
  | Ok cleaned =>
      let text := recognize cleaned in
      Ok (postprocess text)
  end.

End run_ocr.

End TrOCR.

(** * services/trocr_mp.py *)
Module TrOCRRunner.
Import Py.

(** [SYMBOL_MAP = str.maketrans({...})] of [process_file]; the keys are
    the code points of the sixteen characters of the literal. *)
Definition SYMBOL_MAP : gmap N (list N) :=
  list_to_map
    [ (163%N, u "F");   (* pound sign *)
      (64%N, u "A");    (* commercial at *)
      (36%N, u "S");    (* dollar sign *)
      (33%N, u "I");    (* exclamation mark *)
      (124%N, u "I");   (* vertical line *)
      (167%N, u "S");   (* section sign *)
      (8364%N, u "E");  (* euro sign *)
      (165%N, u "Y");   (* yen sign *)
      (162%N, u "C");   (* cent sign *)
      (63%N, []);       (* question mark *)
      (42%N, []);       (* asterisk *)
      (35%N, []);       (* number sign *)
      (44%N, []);       (* comma *)
      (46%N, []);       (* full stop *)
      (58%N, []);       (* colon *)
      (39%N, []) ].     (* apostrophe *)

(** [TrOCRRunner.run_ocr]'s post-processing, the same two statements as
    in [TrOCR.run_ocr]. *)
Definition postprocess (text : str) : str :=
  let text := replace1 46%N [] text in
  join [] (split text).

(** [ocr_clean] of [process_file], from [ocr_raw]. *)
Definition ocr_clean_of (ocr_raw : str) : str :=
  let ocr_clean := join [] (split ocr_raw) in
  translate SYMBOL_MAP ocr_clean.

(** The stray punctuation of the specification, read as the ASCII
    punctuation characters (Python's [string.punctuation]). *)
Definition spec_stray_punctuation (c : char) : bool :=
  ((33 <=? c) && (c <=? 47) || (58 <=? c) && (c <=? 64) ||
   (91 <=? c) && (c <=? 96) || (123 <=? c) && (c <=? 126))%N.

(** What [translate(SYMBOL_MAP)] does to one character. *)
Definition remap (c : char) : str :=
  match SYMBOL_MAP !! c with Some r => r | None => [c] end.

(** A row [[file, expected, ocr_raw, ocr_clean, match]]. *)
Record row := Row {
  file : str;
  expected : str;
  ocr : str;
  clean : str;
  matched : Z
}.

Section process_file.

Context {image : Type}.
(** [self.clean_fn] when [enable_clean] holds, and the model. *)
Variable enable_clean : bool.
Variable clean_fn : image -> outcome image.
Variable recognize : image -> str.

Definition run_ocr (img : image) : outcome str :=
  match (if enable_clean then clean_fn img else Ok img) with
  | Raise e => Raise e
  | Ok img_clean => Ok (postprocess (recognize img_clean))
  end.

(** [process_file], given the base name, its stem and what
    [Image.open(path).convert("RGB")] yields. *)
Definition process_file (name stem : str) (opened : outcome image) : outcome row :=
  match opened with
  | Raise _ => Ok (Row name stem [] [] 0)
  | Ok img =>
      match run_ocr img with
      | Raise e => Raise e
      | Ok ocr_raw =>
          let ocr_clean := ocr_clean_of ocr_raw in
          let m := Z.b2z (bool_decide (ocr_clean = stem)) in
          Ok (Row name stem ocr_raw ocr_clean m)
      end
  end.

End process_file.

(** The choice of the device in [TrOCRRunner.__init__], as the name
    handed to [torch.device]: [device] is the argument ([None] or a
    string, of which the empty one counts as absent), [cuda_available]
    what [torch.cuda.is_available()] answers. *)
Definition select_device (device : option str) (cuda_available : bool) : str :=
  match device with
  | Some ((_ :: _) as d) =>
      if cuda_available || contains (u "cpu") d then d else u "cpu"
  | _ => if cuda_available then u "cuda" else u "cpu"
  end.

End TrOCRRunner.

(** * services/mainclass.py *)
Module Scraper.
Import Py.

(** ** Values and the transport *)

(** A cookie mapping: name to value. *)
Abbreviation jar := (gmap (list N) (list N)) (only parsing).

(** What [run] returns: a [str], or the dict [{"error": str(e)}]. *)
Inductive pyval : Type :=
| VStr (s : str)
| VDict (d : gmap (list N) (list N)).

(** A [requests.Response], by the attributes the code reads, with the
    cookies it sets. *)
Record response := Response {
  status_code : Z;
  text : str;
  content : list Z;
  set_cookies : gmap (list N) (list N)
}.

(** The form data of the submission, [self.result_payload]. *)
Record payload := Payload {
  Token : option str;
  lns : str;
  captchacode : str
}.

(** The requests seen by the transport. *)
Inductive event : Type :=
| Get (url : str) (sent : gmap (list N) (list N))
| Post (url : str) (sent : gmap (list N) (list N)) (data : payload).

(** The transport's side of one attempt: what it answers to the index
    GET, to the CAPTCHA GET and to the submission POST, should the
    attempt make them. *)
Record exchange := Exchange {
  index_page : outcome response;
  captcha_image : outcome response;
  result_page : outcome response
}.

(** The [VTUScraper] object.  The header dictionaries, constants that
    reach no decision, are left out. *)
Record VTUScraper := {
  site_path : str;
  base : str;
  index_url : str;
  result_url : str;
  cookies : option (gmap (list N) (list N));
  result_payload : option payload;
  timeout : Z;
  verify_ssl : bool
}.

(** [VTUScraper.__init__] *)
Definition init (site_path0 : str) : VTUScraper :=
  let site_path := strip_chars (u "/") (strip site_path0) in
  let base := u "https://results.vtu.ac.in" in
  {| site_path := site_path;
     base := base;
     index_url := base ++ u "/" ++ site_path ++ u "/index.php";
     result_url := base ++ u "/" ++ site_path ++ u "/resultpage.php";
     cookies := None;
     result_payload := None;
     timeout := 20;
     verify_ssl := false |}.

(** The state [run] works on: the object, the cookies of the
    [requests.Session] of the current call, the number of calls of [run]
    begun so far, and the requests made so far (oldest first). *)
Record state := State {
  self : VTUScraper;
  session : gmap (list N) (list N);
  clock : nat;
  trace : list event
}.

(** ** A state and exception monad *)

Definition M (A : Type) : Type := state -> outcome A * state.

Definition ret {A} (a : A) : M A := fun st => (Ok a, st).

Definition bind {A B} (m : M A) (f : A -> M B) : M B :=
  fun st =>
    match m st with
    | (Ok a, st') => f a st'
    | (Raise e, st') => (Raise e, st')
    end.

Definition lift {A} (o : outcome A) : M A := fun st => (o, st).

Definition get_state : M state := fun st => (Ok st, st).

Definition put_state (st' : state) : M unit := fun _ => (Ok tt, st').

(** [try: m except Exception as e: h(str(e))] *)
Definition try_except {A} (m : M A) (h : str -> M A) : M A :=
  fun st =>
    match m st with
    | (Ok a, st') => (Ok a, st')
    | (Raise e, st') => h e st'
    end.

#[export] Instance M_ret : MRet M := @ret.
#[export] Instance M_bind : MBind M := fun A B f m => bind m f.

(** ** Extraction from the index page *)

(** The [re.search] of [run], yielding [group(1)].  The pattern is the
    text [src=], a double quote, the group, a double quote; the group is
    [/captcha/] followed by one or more characters other than a double
    quote. *)
Definition quote : char := 34%N.

Fixpoint span (p : char -> bool) (s : str) : str * str :=
  match s with
  | [] => ([], [])
  | c :: s' =>
      if p c then let '(a, b) := span p s' in (c :: a, b) else ([], s)
  end.

Definition match_captcha_at (s : str) : option str :=
  let pre := u "src=" ++ [quote] ++ u "/captcha/" in
  if startswith pre s then
    match span (fun c => negb (c =? quote)%N) (drop (length pre) s) with
    | (c :: name, _ :: _) => Some (u "/captcha/" ++ c :: name)
    | _ => None
    end
  else None.

Fixpoint search_captcha (html : str) : option str :=
  match match_captcha_at html with
  | Some g => Some g
  | None =>
      match html with
      | [] => None
      | _ :: html' => search_captcha html'
      end
  end.

(** The text that opens a CAPTCHA reference: [src=], a double quote and
    [/captcha/]. *)
Definition opening : str := u "src=" ++ [quote] ++ u "/captcha/".

(** The marker of the retry loop and the [in] test applied to what [run]
    returned: substring search on a [str], key membership on a dict. *)
Definition INVALID_CAPTCHA : str := u "Invalid captcha code !!!".

Definition py_in (needle : str) (v : pyval) : bool :=
  match v with
  | VStr s => contains needle s
  | VDict d => bool_decide (is_Some (d !! needle))
  end.

(** The state in which the main block starts: the scraper just built,
    no request made. *)
Definition initial (site : str) : state :=
  {| self := init site; session := ∅; clock := 0; trace := [] |}.

Section run.

(** Collaborators of [run]: the transport, which answers the requests
    of the [n]-th call of [run] by [transport n]; BeautifulSoup's
    [soup.find("input", {"name": "Token"})] followed by [.get("value")]
    ([None] when no tag is found, [Some None] for a tag without value);
    [Image.open]; and [run_ocr] of [services/TrOCR.py]. *)
Context {image : Type}.
Variable transport : nat -> exchange.
Variable find_token : str -> option (option str).
Variable Image_open : list Z -> outcome image.
Variable run_ocr : image -> outcome str.

(** [session.get(url, ...)]: the session sends its cookies and keeps
    those of the answer. *)
Definition session_get (url : str) (answer : outcome response) : M response :=
  st ← get_state;
  put_state {| self := self st; session := session st; clock := clock st;
               trace := trace st ++ [Get url (session st)] |};;
  r ← lift answer;
  st ← get_state;
  put_state {| self := self st; session := set_cookies r ∪ session st;
               clock := clock st; trace := trace st |};;
  ret r.

(** [requests.post(url=..., cookies=..., data=...)] *)
Definition requests_post (url : str) (cks : gmap (list N) (list N))
    (data : payload) (answer : outcome response) : M response :=
  st ← get_state;
  put_state {| self := self st; session := session st; clock := clock st;
               trace := trace st ++ [Post url cks data] |};;
  lift answer.

(** The two assignments to [self.cookies] and [self.result_payload]. *)
Definition set_fields (cks : gmap (list N) (list N)) (data : payload) : M unit :=
  st ← get_state;
  let s := self st in
  put_state {| self := {| site_path := site_path s; base := base s;
                          index_url := index_url s; result_url := result_url s;
                          cookies := Some cks; result_payload := Some data;
                          timeout := timeout s; verify_ssl := verify_ssl s |};
               session := session st; clock := clock st; trace := trace st |}.

(** [session = requests.Session()]: a fresh session, and the next
    exchange of the transport. *)
Definition new_session : M exchange :=
  st ← get_state;
  put_state {| self := self st; session := ∅; clock := S (clock st);
               trace := trace st |};;
  ret (transport (clock st)).

(** The body of the [try] block of [run]. *)
Definition run_body (lns0 : str) : M pyval :=
  x ← new_session;
  st ← get_state;
  r ← session_get (index_url (self st)) (index_page x);
  let html := text r in
  match find_token html with
  | None => ret (VStr (u "TOKEN NOT FOUND"))
  | Some token_value =>
      captcha_text ←
        match search_captcha html with
        | Some path =>
            let captcha_url := base (self st) ++ path in
            cap ← session_get captcha_url (captcha_image x);
            let raw_img := content cap in
            img ← lift (Image_open raw_img);
            t ← lift (run_ocr img);
            ret (strip t)
        | None => ret []
        end;
      st' ← get_state;
      let cks := session st' in
      let data := {| Token := token_value; lns := lns0;
                     captchacode := captcha_text |} in
      set_fields cks data;;
      r ← requests_post (result_url (self st)) cks data (result_page x);
      let full := text r in
      ret (VStr full)
  end.

(** [VTUScraper.run] *)
Definition run (lns0 : str) : M pyval :=
  try_except (run_body lns0)
    (fun e => ret (VDict {[ u "error" := e ]})).

(** ** A full cycle, in the words of the specification *)

(** A full fetch/solve/submit cycle of the scraper [sc] against the
    exchange [x], for the lookup identifier [lns0]: the index page
    answers and holds a token, the CAPTCHA (when the page refers to one)
    is fetched, decoded and read, and the submission answers.  The
    cycle determines the requests made, in order, and the body of the
    submission response. *)
Inductive cycle (sc : VTUScraper) (lns0 : str) (x : exchange) :
    list event -> str -> Prop :=
| cycle_captcha r tok path cap img t rp :
    index_page x = Ok r ->
    find_token (text r) = Some tok ->
    search_captcha (text r) = Some path ->
    captcha_image x = Ok cap ->
    Image_open (content cap) = Ok img ->
    run_ocr img = Ok t ->
    result_page x = Ok rp ->
    cycle sc lns0 x
      [ Get (index_url sc) ∅;
        Get (base sc ++ path) (set_cookies r);
        Post (result_url sc) (set_cookies cap ∪ set_cookies r)
             {| Token := tok; lns := lns0; captchacode := strip t |} ]
      (text rp)
| cycle_no_captcha r tok rp :
    index_page x = Ok r ->
    find_token (text r) = Some tok ->
    search_captcha (text r) = None ->
    result_page x = Ok rp ->
    cycle sc lns0 x
      [ Get (index_url sc) ∅;
        Post (result_url sc) (set_cookies r)
             {| Token := tok; lns := lns0; captchacode := [] |} ]
      (text rp).

(** ** The retry loop of the main block *)

(** The [while attempt < MAX_RETRY] loop, with [fuel] bounding the number
    of iterations: [None] when the fuel runs out before the loop ends. *)
Fixpoint retry_loop (fuel : nat) (MAX_RETRY attempt : nat) (result : pyval)
    (st : state) : option (nat * pyval * state) :=
  if (attempt <? MAX_RETRY)%nat then
    match fuel with
    | O => None
    | S fuel' =>
        let attempt := (attempt + 1)%nat in
        match run [] st with
        | (Ok result, st') =>
            if py_in INVALID_CAPTCHA result
            then retry_loop fuel' MAX_RETRY attempt result st'
            else Some (attempt, result, st')
        | (Raise _, _) => None
        end
    end
  else Some (attempt, result, st).

(** The main block: the scraper for [site], the loop, and the value of
    [result] that is printed at the end, with the number of attempts
    made and the final state. *)
Definition main (site : str) (MAX_RETRY : nat) : option (nat * pyval * state) :=
  retry_loop MAX_RETRY MAX_RETRY 0 (VStr []) (initial site).

End run.

(** Two scraper objects for the same site: they differ at most in the
    fields [cookies] and [result_payload] that [run] overwrites. *)
Definition same_site (s1 s2 : VTUScraper) : Prop :=
  site_path s1 = site_path s2 ∧ base s1 = base s2 ∧
  index_url s1 = index_url s2 ∧ result_url s1 = result_url s2.

(** The failure descriptor of the specification for an exhausted retry
    budget: a mapping with the keys [kind] and [message], whose kind is
    [retries-exhausted]. *)
Definition spec_retries_exhausted (v : pyval) : Prop :=
  ∃ d msg, v = VDict d ∧ d !! u "kind" = Some (u "retries-exhausted") ∧
           d !! u "message" = Some msg.

(** The constants of the main block. *)
Definition MAX_RETRY : nat := 5.
Definition SITE : str := u "JJEcbcs25".

(** The submission POSTs among a list of requests. *)
Definition is_post (e : event) : bool :=
  match e with Post _ _ _ => true | Get _ _ => false end.

Definition posts (tr : list event) : list event := List.filter is_post tr.

(** What is observed of a finished main block: the number of attempts,
    the value printed, and the submission POSTs made. *)
Definition summary (r : option (nat * pyval * state))
    : option (nat * pyval * list event) :=
  match r with
  | Some (n, v, st) => Some (n, v, posts (trace st))
  | None => None
  end.

End Scraper.

(** * Scripted collaborators

    Concrete collaborators on which the embedding runs: pages, a
    transport per scenario, and stand-ins for the libraries. *)
Module Script.
Import Py Scraper.

(** The index page without and with a CAPTCHA reference, and a page of
    another structure. *)
Definition page_plain : str := u "<input name=Token value=tok>".
Definition page_captcha : str :=
  page_plain ++ u "<img src=" ++ [quote] ++ u "/captcha/c.png" ++ [quote] ++ u ">".
Definition page_other : str := u "<html>maintenance</html>".

Definition body_invalid : str :=
  u "<script>alert('Invalid captcha code !!!');</script>".
Definition body_success : str := u "<html>results</html>".

Definition page (body : str) : response :=
  {| status_code := 200; text := body; content := [];
     set_cookies := {[ u "PHPSESSID" := u "s1" ]} |}.

Definition answer (body : str) : outcome response := Ok (page body).

(** The bytes of a CAPTCHA image: width, height, then the samples. *)
Definition image_bytes : list Z := [2; 2; 10; 10; 10; 200]%Z.

Definition image_answer (bytes : list Z) : outcome response :=
  Ok {| status_code := 200; text := []; content := bytes; set_cookies := ∅ |}.

(** Stand-ins for BeautifulSoup, [Image.open] and the recognition model. *)
Definition find_token (html : str) : option (option str) :=
  if contains (u "name=Token") html then Some (Some (u "tok")) else None.

Definition Image_open (bytes : list Z) : outcome Gray.L.image :=
  match bytes with
  | w :: h :: samples =>
      Ok {| Gray.L.width := Z.to_nat w; Gray.L.height := Z.to_nat h;
            Gray.L.data := samples |}
  | _ => Raise (u "cannot identify image file")
  end.

Definition recognize (cleaned : list (list Z)) : str := u " aB.3 x".

Definition run_ocr : Gray.L.image -> outcome str :=
  TrOCR.run_ocr
    (Gray.clean_captcha Gray.exact Gray.L.grayscale Gray.L.median_filter3
       Gray.L.np_array)
    recognize.

(** Invalid CAPTCHA on the first two attempts, success afterwards. *)
Definition third_time_lucky (n : nat) : exchange :=
  {| index_page := answer page_captcha;
     captcha_image := image_answer image_bytes;
     result_page := if (n <? 2)%nat then answer body_invalid
                    else answer body_success |}.

(** Invalid CAPTCHA on every attempt. *)
Definition always_invalid (n : nat) : exchange :=
  {| index_page := answer page_plain;
     captcha_image := image_answer image_bytes;
     result_page := answer body_invalid |}.

(** An index page without token. *)
Definition token_missing (n : nat) : exchange :=
  {| index_page := answer page_other;
     captcha_image := image_answer image_bytes;
     result_page := answer body_success |}.

(** The CAPTCHA image cannot be fetched, or cannot be decoded. *)
Definition captcha_unreachable (n : nat) : exchange :=
  {| index_page := answer page_captcha;
     captcha_image := Raise (u "Read timed out.");
     result_page := answer body_invalid |}.

Definition captcha_undecodable (n : nat) : exchange :=
  {| index_page := answer page_captcha;
     captcha_image := image_answer [];
     result_page := answer body_invalid |}.

End Script.

(** * Facts about the string primitives *)
Module PyFacts.
Import Py.

Lemma startswith_spec (pre s : list N) :
  startswith pre s = true ↔ ∃ t, s = pre ++ t.
Proof.
  revert s. induction pre as [|p pre IH]; intros s; simpl.
  - split; [intros _; by exists s | done].
  - destruct s as [|c s].
    + split; [done | intros [t Ht]; discriminate].
    + destruct (decide (p = c)) as [->|Hne].
      * rewrite IH. split; intros [t Ht]; exists t; simpl in *; congruence.
      * split; [done | intros [t Ht]; simpl in Ht; congruence].
Qed.

(** [sub in s] holds exactly when [s] is [pre ++ sub ++ post]. *)
Lemma contains_spec (sub s : list N) :
  contains sub s = true ↔ ∃ pre post, s = pre ++ sub ++ post.
Proof.
  induction s as [|c s IH]; simpl.
  - rewrite orb_false_r, startswith_spec. split.
    + intros [t Ht]. by exists [], t.
    + intros (pre & post & H). symmetry in H.
      apply app_eq_nil in H as [-> H]. exists post. by rewrite H.
  - rewrite orb_true_iff, startswith_spec, IH. split.
    + intros [[t Ht] | (pre & post & Ht)].
      * by exists [], t.
      * exists (c :: pre), post. by rewrite Ht.
    + intros (pre & post & Ht). destruct pre as [|c' pre].
      * left. by exists post.
      * right. exists pre, post. simpl in Ht. congruence.
Qed.

Lemma contains_false (sub s : list N) :
  contains sub s = false ↔ ¬ ∃ pre post, s = pre ++ sub ++ post.
Proof. rewrite <- contains_spec. by destruct (contains sub s). Qed.

Lemma join_nil_cons (p : list N) (ps : list (list N)) :
  join [] (p :: ps) = p ++ join [] ps.
Proof. destruct ps; simpl; [by rewrite app_nil_r | done]. Qed.

Lemma join_split_from (cur s : list N) :
  join [] (split_from cur s) =
  rev cur ++ List.filter (fun c => negb (isspace c)) s.
Proof.
  revert cur. induction s as [|c s IH]; intros cur; simpl.
  - destruct cur; simpl; by rewrite ?app_nil_r.
  - destruct (isspace c); simpl.
    + destruct cur as [|d cur].
      * apply IH.
      * rewrite join_nil_cons, IH. done.
    + rewrite IH. simpl. by rewrite <- app_assoc.
Qed.

(** Joining the fields of [split()] with the empty separator deletes
    the whitespace and nothing else. *)
Lemma join_split (s : list N) :
  join [] (split s) = List.filter (fun c => negb (isspace c)) s.
Proof. apply join_split_from. Qed.

(** Replacing one character by the empty string deletes its occurrences. *)
Lemma replace1_nil (old : N) (s : list N) :
  replace1 old [] s = List.filter (fun c => negb (bool_decide (c = old))) s.
Proof.
  unfold replace1. induction s as [|c s IH]; [done|].
  change ((c :: s) ≫= _) with
    ((if decide (c = old) then [] else [c]) ++
     (s ≫= fun c => if decide (c = old) then [] else [c])).
  rewrite IH. simpl. destruct (decide (c = old)) as [->|Hne].
  - by rewrite bool_decide_eq_true_2.
  - by rewrite bool_decide_eq_false_2.
Qed.

Lemma translate_cons (table : gmap N (list N)) (c : N) (s : list N) :
  translate table (c :: s) =
  match table !! c with Some r => r | None => [c] end ++ translate table s.
Proof. done. Qed.

Lemma filter_filter (p q : N -> bool) (s : list N) :
  List.filter p (List.filter q s) = List.filter (fun c => q c && p c) s.
Proof.
  induction s as [|c s IH]; [done|]. simpl.
  destruct (q c); simpl; [destruct (p c)|]; by rewrite IH.
Qed.

End PyFacts.

(** * Facts about the image cleaner *)
Module GrayFacts.
Import Py Gray.
Local Open Scope Z_scope.

(** ** Slices and sums *)

Lemma at0_nil (j : nat) : at0 [] j = 0.
Proof. done. Qed.

Lemma at0_cons_S (x : Z) (r : list Z) (j : nat) : at0 (x :: r) (S j) = at0 r j.
Proof. done. Qed.

Lemma sum_row_slice (r : list Z) (j : nat) :
  sum_row (take 3 (drop j r)) = at0 r j + at0 r (j + 1) + at0 r (j + 2).
Proof.
  revert r. induction j as [|j IH]; intros r.
  - destruct r as [|a [|b [|c r]]]; unfold at0; simpl; lia.
  - destruct r as [|a r].
    + by rewrite drop_nil.
    + simpl drop. rewrite IH. done.
Qed.

(** The sum of the three columns [j .. j+2] of an optional row. *)
Definition row3 (o : option (list Z)) (j : nat) : Z :=
  match o with
  | Some r => at0 r j + at0 r (j + 1) + at0 r (j + 2)
  | None => 0
  end.

Lemma np_sum_window (pad : list (list Z)) (i j : nat) :
  np_sum (window pad i j) =
  row3 (pad !! i) j + row3 (pad !! (i + 1)%nat) j + row3 (pad !! (i + 2)%nat) j.
Proof.
  unfold window. revert pad. induction i as [|i IH]; intros pad.
  - destruct pad as [|a [|b [|c pad]]]; simpl;
      rewrite ?sum_row_slice; lia.
  - destruct pad as [|a pad].
    + by rewrite drop_nil.
    + simpl drop. rewrite IH. done.
Qed.

Lemma row3_at2 (a : list (list Z)) (i j : nat) :
  row3 (a !! i) j = at2 a i j + at2 a i (j + 1) + at2 a i (j + 2).
Proof.
  unfold at2, get2, row3. destruct (a !! i) as [r|]; done.
Qed.

(** ** Padding *)

Lemma at0_replicate_0 (n j : nat) : at0 (replicate n 0) j = 0.
Proof.
  unfold at0. destruct (replicate n 0 !! j) as [v|] eqn:E; [|done].
  apply lookup_replicate in E as [-> _]. done.
Qed.

Lemma at0_framed (r : list Z) (b : nat) :
  at0 (0 :: r ++ [0]) b = match b with O => 0 | S b' => at0 r b' end.
Proof.
  destruct b as [|b]; [done|]. rewrite at0_cons_S. unfold at0.
  destruct (decide (b < length r)%nat) as [Hlt|Hge].
  - by rewrite lookup_app_l.
  - rewrite lookup_app_r by lia. rewrite (lookup_ge_None_2 r b) by lia.
    by destruct (b - length r)%nat as [|[|k]].
Qed.

Lemma at2_pad (mask : list (list Z)) (a b : nat) :
  at2 (np_pad1 mask) a b = padded mask a b.
Proof.
  unfold np_pad1, at2 at 1, get2. set (z := replicate _ 0).
  destruct a as [|a].
  - apply at0_replicate_0.
  - change ((z :: _) !! S a) with
      ((((fun r : list Z => 0 :: r ++ [0]) <$> mask) ++ [z]) !! a).
    rewrite lookup_app, list_lookup_fmap, length_fmap.
    destruct (mask !! a) as [r|] eqn:E.
    + transitivity (at0 (0 :: r ++ [0]) b); [done|].
      rewrite at0_framed.
      destruct b as [|b]; [done|]. unfold padded, at2, get2. by rewrite E.
    + assert (Hb : padded mask (S a) b = 0).
      { unfold padded, at2, get2. rewrite E. by destruct b. }
      rewrite Hb. simpl.
      destruct (a - length mask)%nat as [|[|k]]; [|done..].
      apply at0_replicate_0.
Qed.

(** The window sum is the sum of the nine padded samples. *)
Lemma window_sum_padded (mask : list (list Z)) (i j : nat) :
  np_sum (window (np_pad1 mask) i j) = sum_row (neighbourhood mask i j).
Proof.
  rewrite np_sum_window, !row3_at2, !at2_pad.
  unfold neighbourhood, sum_row. simpl. lia.
Qed.

(** ** Writing into an array *)

Lemma rect_set2 (h w : nat) (a : list (list Z)) (i j : nat) (v : Z) :
  rect h w a → rect h w (set2 a i j v).
Proof.
  intros [Hh Hw]. split.
  - unfold set2. by rewrite length_alter.
  - apply Forall_alter; [done|]. intros r _ Hr. by rewrite length_insert.
Qed.

Lemma get2_set2 (a : list (list Z)) (i j : nat) (v : Z) (i' j' : nat) :
  get2 (set2 a i j v) i' j' =
  if decide (i = i' ∧ j = j')
  then match get2 a i j with Some _ => Some v | None => None end
  else get2 a i' j'.
Proof.
  unfold get2, set2. rewrite list_lookup_alter.
  destruct (decide (i = i')) as [<-|Hi].
  - destruct (a !! i) as [r|]; simpl.
    + rewrite list_lookup_insert.
      destruct (r !! j) as [x|] eqn:E.
      * apply lookup_lt_Some in E.
        repeat case_decide; intuition (subst; done || lia).
      * pose proof E as E'. apply lookup_ge_None in E'.
        repeat case_decide; intuition (subst; done || lia).
    + by case_decide.
  - rewrite decide_False by intuition. done.
Qed.

Lemma get2_rect_Some (h w : nat) (a : list (list Z)) (i j : nat) :
  rect h w a → (i < h)%nat → (j < w)%nat → is_Some (get2 a i j).
Proof.
  intros [Hh Hw] Hi Hj. unfold get2.
  destruct (lookup_lt_is_Some_2 a i) as [r Hr]; [lia|].
  rewrite Hr. simpl. apply lookup_lt_is_Some.
  rewrite Forall_lookup in Hw. rewrite (Hw _ _ Hr). done.
Qed.

Lemma get2_rect_inv (h w : nat) (a : list (list Z)) (i j : nat) (v : Z) :
  rect h w a → get2 a i j = Some v → (i < h)%nat ∧ (j < w)%nat.
Proof.
  intros [Hh Hw] H. unfold get2 in H.
  destruct (a !! i) as [r|] eqn:Hr; [|done]. simpl in H.
  apply lookup_lt_Some in H. pose proof (lookup_lt_Some _ _ _ Hr).
  rewrite Forall_lookup in Hw. rewrite (Hw _ _ Hr) in H. lia.
Qed.

(** ** The two loops of the majority filter *)

Section loops.
Variables h w : nat.
Variable f : nat → nat → Z.

(** The inner loop over [j], for a fixed row [i]. *)
Lemma inner_loop (out : list (list Z)) (i m : nat) :
  rect h w out → (i < h)%nat → (m ≤ w)%nat →
  let out' := foldl (fun out j => set2 out i j (f i j)) out (seq 0 m) in
  rect h w out' ∧
  ∀ i' j', get2 out' i' j' =
           if decide (i' = i ∧ (j' < m)%nat) then Some (f i j') else get2 out i' j'.
Proof.
  intros Hrect Hi. cbv zeta. induction m as [|m IH]; intros Hm.
  - split; [done|]. intros i' j'. rewrite decide_False by lia. done.
  - rewrite seq_S, foldl_app. simpl.
    destruct IH as [IHr IHg]; [lia|]. split.
    + by apply rect_set2.
    + intros i' j'. rewrite get2_set2.
      destruct (decide (i = i' ∧ m = j')) as [[<- <-]|Hne].
      * rewrite decide_True by lia.
        destruct (get2_rect_Some h w _ i m IHr Hi) as [x ->]; [lia|done].
      * rewrite IHg.
        destruct (decide (i' = i ∧ (j' < m)%nat)) as [[-> ?]|?].
        -- by rewrite decide_True by lia.
        -- rewrite decide_False; [done|]. intros [-> ?].
           assert (j' = m) by lia. intuition.
Qed.

(** The outer loop over [i]. *)
Lemma outer_loop (out : list (list Z)) (n : nat) :
  rect h w out → (n ≤ h)%nat →
  let out' :=
    foldl (fun out i => foldl (fun out j => set2 out i j (f i j)) out (seq 0 w))
          out (seq 0 n) in
  rect h w out' ∧
  ∀ i' j', get2 out' i' j' =
           if decide ((i' < n)%nat ∧ (j' < w)%nat) then Some (f i' j')
           else get2 out i' j'.
Proof.
  intros Hrect. cbv zeta. induction n as [|n IH]; intros Hn.
  - split; [done|]. intros i' j'. rewrite decide_False by lia. done.
  - rewrite seq_S, foldl_app. simpl.
    destruct IH as [IHr IHg]; [lia|].
    destruct (inner_loop _ n w IHr) as [Hr Hg]; [lia..|].
    split; [done|]. intros i' j'. rewrite Hg.
    destruct (decide (i' = n ∧ (j' < w)%nat)) as [[-> ?]|?].
    + by rewrite decide_True by lia.
    + rewrite IHg.
      destruct (decide ((i' < n)%nat ∧ (j' < w)%nat)) as [[? ?]|?].
      * by rewrite decide_True by lia.
      * rewrite decide_False; [done|]. intros [? ?].
        assert (i' = n) by lia. intuition.
Qed.

End loops.

Lemma rect_elementwise (g : Z → Z) (h w : nat) (a : list (list Z)) :
  rect h w a → rect h w (elementwise g a).
Proof.
  intros [Hh Hw]. unfold elementwise. split.
  - by rewrite length_fmap.
  - apply Forall_fmap. eapply Forall_impl; [exact Hw|].
    intros r Hr. simpl. by rewrite length_fmap.
Qed.

Lemma get2_elementwise (g : Z → Z) (a : list (list Z)) (i j : nat) :
  get2 (elementwise g a) i j = g <$> get2 a i j.
Proof.
  unfold get2, elementwise. rewrite list_lookup_fmap.
  destruct (a !! i) as [r|]; simpl; [|done]. by rewrite list_lookup_fmap.
Qed.

Lemma Forall_elementwise (P : Z → Prop) (g : Z → Z) (a : list (list Z)) :
  (∀ v, P (g v)) → Forall (Forall P) (elementwise g a).
Proof.
  intros HP. unfold elementwise. apply Forall_fmap, Forall_true. intros r.
  simpl. by apply Forall_fmap, Forall_true.
Qed.

Lemma rect_zeros_like (h w : nat) (a : list (list Z)) :
  rect h w a → rect h w (zeros_like a).
Proof. apply rect_elementwise. Qed.

Lemma shape_rect (h w : nat) (a : list (list Z)) :
  rect h w a → (0 < h)%nat → shape a = (h, w).
Proof.
  intros [Hh Hw] Hpos. unfold shape. destruct a as [|r a]; simpl in *; [lia|].
  inversion Hw; subst. done.
Qed.

(** The loops store, at every position, the vote of its window. *)
Lemma majority_filter_rect (h w : nat) (mask : list (list Z)) :
  rect h w mask → rect h w (majority_filter mask).
Proof.
  intros Hrect. destruct (decide (h = 0)%nat) as [->|Hh].
  - destruct Hrect as [Hl _]. apply nil_length_inv in Hl. subst mask.
    by split.
  - unfold majority_filter. rewrite (shape_rect h w) by (done || lia).
    apply (outer_loop h w (vote (np_pad1 mask))); [|lia].
    by apply rect_zeros_like.
Qed.

Lemma majority_filter_get2 (h w : nat) (mask : list (list Z)) (i j : nat) :
  rect h w mask → (i < h)%nat → (j < w)%nat →
  get2 (majority_filter mask) i j = Some (vote (np_pad1 mask) i j).
Proof.
  intros Hrect Hi Hj. unfold majority_filter.
  rewrite (shape_rect h w) by (done || lia).
  destruct (outer_loop h w (vote (np_pad1 mask)) (zeros_like mask) h) as [_ Hg];
    [by apply rect_zeros_like | lia |].
  rewrite Hg. by rewrite decide_True by lia.
Qed.

(** ** Masks *)

Lemma to_mask_is_mask (binary : list (list Z)) : is_mask (to_mask binary).
Proof.
  unfold is_mask, to_mask, elementwise.
  apply Forall_fmap, Forall_true. intros r. simpl.
  apply Forall_fmap, Forall_true. intros b. simpl.
  destruct (b =? 255); auto.
Qed.

Lemma at2_01 (mask : list (list Z)) (i j : nat) :
  is_mask mask → at2 mask i j = 0 ∨ at2 mask i j = 1.
Proof.
  intros Hm. unfold at2, get2.
  destruct (mask !! i) as [r|] eqn:Hr; simpl; [|auto].
  destruct (r !! j) as [v|] eqn:Hv; simpl; [|auto].
  unfold is_mask in Hm. rewrite Forall_lookup in Hm.
  specialize (Hm _ _ Hr). rewrite Forall_lookup in Hm. exact (Hm _ _ Hv).
Qed.

Lemma at2_outside (h w : nat) (a : list (list Z)) (i j : nat) :
  rect h w a → (h ≤ i)%nat ∨ (w ≤ j)%nat → at2 a i j = 0.
Proof.
  intros Hrect Hout. unfold at2.
  destruct (get2 a i j) as [v|] eqn:E; [|done].
  apply (get2_rect_inv h w) in E; [lia | done].
Qed.

Lemma padded_01 (mask : list (list Z)) (a b : nat) :
  is_mask mask → padded mask a b = 0 ∨ padded mask a b = 1.
Proof.
  intros Hm. destruct a as [|a], b as [|b]; simpl; auto using at2_01.
Qed.

Lemma padded_border (h w : nat) (mask : list (list Z)) (a b : nat) :
  rect h w mask →
  a = 0%nat ∨ b = 0%nat ∨ (h < a)%nat ∨ (w < b)%nat →
  padded mask a b = 0.
Proof.
  intros Hrect Hb. destruct a as [|a], b as [|b]; simpl; try done.
  apply (at2_outside h w); [done | lia].
Qed.

Lemma padded_inside (mask : list (list Z)) (i j : nat) :
  padded mask (i + 1) (j + 1) = at2 mask i j.
Proof. by rewrite !Nat.add_1_r. Qed.

Lemma sum_row_count (l : list Z) :
  Forall (fun v => v = 0 ∨ v = 1) l →
  sum_row l = Z.of_nat (length (List.filter (fun v => v =? 1) l)).
Proof.
  induction 1 as [|v l [-> | ->] _ IH]; simpl; [done| |]; rewrite IH; simpl; lia.
Qed.

Lemma neighbourhood_01 (mask : list (list Z)) (i j : nat) :
  is_mask mask → Forall (fun v => v = 0 ∨ v = 1) (neighbourhood mask i j).
Proof.
  intros Hm. unfold neighbourhood.
  repeat (apply Forall_cons_2; [by apply padded_01|]). apply Forall_nil_2.
Qed.

(** The vote compares the number of foreground pixels of the padded 3x3
    neighbourhood with 5. *)
Lemma vote_count (mask : list (list Z)) (i j : nat) :
  is_mask mask →
  vote (np_pad1 mask) i j = if 5 <=? foreground_count mask i j then 1 else 0.
Proof.
  intros Hm. unfold vote, foreground_count.
  by rewrite window_sum_padded, sum_row_count by by apply neighbourhood_01.
Qed.

Lemma foreground_count_range (mask : list (list Z)) (i j : nat) :
  0 ≤ foreground_count mask i j ≤ 9.
Proof.
  unfold foreground_count.
  pose proof (filter_length_le (fun v => v =? 1) (neighbourhood mask i j)) as H.
  simpl length in H at 2. lia.
Qed.

(** At a corner five of the nine samples lie in the padding. *)
Lemma corner_count (h w : nat) (mask : list (list Z)) (i j : nat) :
  rect h w mask → is_mask mask →
  i = 0%nat ∨ i = (h - 1)%nat → j = 0%nat ∨ j = (w - 1)%nat →
  foreground_count mask i j ≤ 4.
Proof.
  intros Hrect Hm Hi Hj. unfold foreground_count.
  rewrite <- sum_row_count by by apply neighbourhood_01.
  unfold neighbourhood, sum_row. simpl.
  pose proof (padded_01 mask i j Hm).
  pose proof (padded_01 mask i (j + 1) Hm).
  pose proof (padded_01 mask i (j + 2) Hm).
  pose proof (padded_01 mask (i + 1) j Hm).
  pose proof (padded_01 mask (i + 1) (j + 1) Hm).
  pose proof (padded_01 mask (i + 1) (j + 2) Hm).
  pose proof (padded_01 mask (i + 2) j Hm).
  pose proof (padded_01 mask (i + 2) (j + 1) Hm).
  pose proof (padded_01 mask (i + 2) (j + 2) Hm).
  destruct Hi as [Hi|Hi], Hj as [Hj|Hj].
  - rewrite (padded_border h w mask i j), (padded_border h w mask i (j + 1)),
      (padded_border h w mask i (j + 2)), (padded_border h w mask (i + 1) j),
      (padded_border h w mask (i + 2) j) by (done || lia). lia.
  - rewrite (padded_border h w mask i j), (padded_border h w mask i (j + 1)),
      (padded_border h w mask i (j + 2)), (padded_border h w mask (i + 1) (j + 2)),
      (padded_border h w mask (i + 2) (j + 2)) by (done || lia). lia.
  - rewrite (padded_border h w mask i j), (padded_border h w mask (i + 1) j),
      (padded_border h w mask (i + 2) j), (padded_border h w mask (i + 2) (j + 1)),
      (padded_border h w mask (i + 2) (j + 2)) by (done || lia). lia.
  - rewrite (padded_border h w mask i (j + 2)), (padded_border h w mask (i + 1) (j + 2)),
      (padded_border h w mask (i + 2) j), (padded_border h w mask (i + 2) (j + 1)),
      (padded_border h w mask (i + 2) (j + 2)) by (done || lia). lia.
Qed.

(** ** Mean, minimum and threshold *)

Lemma Qltb_lt (x y : Q) : Qltb x y = true ↔ (x < y)%Q.
Proof. unfold Qltb, Qlt. apply Z.ltb_lt. Qed.

Lemma Qltb_ge (x y : Q) : Qltb x y = false ↔ (y <= x)%Q.
Proof. unfold Qltb, Qle. rewrite Z.ltb_ge. done. Qed.

Lemma foldr_min_spec (x : Z) (l : list Z) :
  foldr Z.min x l ∈ x :: l ∧ ∀ y, y ∈ x :: l → foldr Z.min x l ≤ y.
Proof.
  induction l as [|a l [IHin IHle]]; simpl.
  - split; [by left|]. intros y Hy. apply list_elem_of_singleton in Hy. lia.
  - split.
    + destruct (Z.min_spec a (foldr Z.min x l)) as [[_ ->]|[_ ->]].
      * right. by left.
      * apply elem_of_cons in IHin as [E|E]; [rewrite E; by left|].
        right. by right.
    + intros y Hy. apply elem_of_cons in Hy as [->|Hy].
      * etrans; [apply Z.le_min_r|]. apply IHle. by left.
      * apply elem_of_cons in Hy as [->|Hy]; [apply Z.le_min_l|].
        etrans; [apply Z.le_min_r|]. apply IHle. by right.
Qed.

Lemma min_list_spec (l : list Z) (m : Z) :
  min_list l = Some m → m ∈ l ∧ ∀ y, y ∈ l → m ≤ y.
Proof.
  destruct l as [|x l]; [done|]. simpl. intros [= <-]. apply foldr_min_spec.
Qed.

Lemma length_concat_rect (h w : nat) (a : list (list Z)) :
  rect h w a → length (concat a) = (h * w)%nat.
Proof.
  intros [<- Hw]. induction Hw as [|r a Hr _ IH]; [done|].
  simpl. rewrite length_app, IH, Hr. done.
Qed.

Lemma np_size_rect (h w : nat) (a : list (list Z)) :
  rect h w a → np_size a = (h * w)%nat.
Proof. apply length_concat_rect. Qed.

Lemma sum_row_app (l k : list Z) : sum_row (l ++ k) = sum_row l + sum_row k.
Proof. unfold sum_row. induction l as [|x l IH]; simpl; lia. Qed.

Lemma np_sum_concat (a : list (list Z)) : np_sum a = sum_row (concat a).
Proof.
  induction a as [|r a IH]; [done|]. simpl. rewrite sum_row_app, <- IH. done.
Qed.

(** On an array with at least one element the minimum exists. *)
Lemma np_min_rect (h w : nat) (a : list (list Z)) :
  rect h w a → (1 ≤ h)%nat → (1 ≤ w)%nat →
  ∃ m, np_min a = Ok m ∧ m ∈ concat a ∧ ∀ y, y ∈ concat a → m ≤ y.
Proof.
  intros Hrect Hh Hw. unfold np_min.
  destruct (min_list (concat a)) as [m|] eqn:E.
  - exists m. split; [done|]. by apply min_list_spec.
  - pose proof (length_concat_rect h w a Hrect) as Hlen.
    destruct (concat a); [simpl in Hlen; nia | done].
Qed.

(** The mask entry of a pixel under a threshold. *)
Lemma mask_entry (p : Z) (t : Q) :
  Z.b2z ((Z.b2z (Qltb (inject_Z p) t) * 255) mod 256 =? 255) =
  Z.b2z (Qltb (inject_Z p) t).
Proof. by destruct (Qltb (inject_Z p) t). Qed.

Lemma get2_mask (arr : list (list Z)) (t : Q) (i j : nat) :
  get2 (to_mask (binarize arr t)) i j =
  (fun p => Z.b2z (Qltb (inject_Z p) t)) <$> get2 arr i j.
Proof.
  unfold to_mask, binarize. rewrite !get2_elementwise.
  destruct (get2 arr i j) as [p|]; simpl; [|done]. by rewrite mask_entry.
Qed.

(** Shape and mask conditions of a literal array. *)
Ltac prove_rect :=
  split; [reflexivity |
          repeat first [apply Forall_nil_2 | apply Forall_cons_2 | reflexivity]].
Ltac prove_uint8 :=
  unfold is_uint8;
  repeat first [apply Forall_nil_2 | apply Forall_cons_2 | lia].
Ltac prove_mask :=
  unfold is_mask;
  repeat first [apply Forall_nil_2 | apply Forall_cons_2 | by left | by right].

(** ** The cleaner as a whole *)

Lemma rect_pad (h w : nat) (mask : list (list Z)) :
  rect h w mask → (0 < h)%nat → rect (h + 2) (w + 2) (np_pad1 mask).
Proof.
  intros Hrect Hh. unfold np_pad1. rewrite (shape_rect h w) by done.
  destruct Hrect as [Hl Hw]. simpl. split.
  - simpl. rewrite length_app, length_fmap. simpl. lia.
  - apply Forall_cons_2; [by rewrite length_replicate|].
    apply Forall_app. split.
    + apply Forall_fmap. eapply Forall_impl; [exact Hw|].
      intros r Hr. simpl in *. rewrite length_app. simpl. lia.
    + apply Forall_cons_2; [by rewrite length_replicate | apply Forall_nil_2].
Qed.

Lemma clean_array_ok (rnd : Q → Q) (arr : list (list Z)) (h w : nat) :
  rect h w arr → (1 ≤ h)%nat → (1 ≤ w)%nat →
  ∃ m t, np_min arr = Ok m ∧
         t = rnd (rnd (np_mean rnd arr + inject_Z m) / 2)%Q ∧
         threshold_of rnd arr = Ok t ∧
         clean_array rnd arr =
         Ok (render (majority_filter (to_mask (binarize arr t)))).
Proof.
  intros Hrect Hh Hw.
  destruct (np_min_rect h w arr Hrect Hh Hw) as (m & Hm & _).
  exists m. eexists. split; [done|]. split; [reflexivity|].
  unfold clean_array, threshold_of. rewrite Hm. done.
Qed.

Lemma rect_clean (arr : list (list Z)) (t : Q) (h w : nat) :
  rect h w arr → rect h w (render (majority_filter (to_mask (binarize arr t)))).
Proof.
  intros Hrect. apply rect_elementwise, majority_filter_rect.
  by do 2 apply rect_elementwise.
Qed.

Lemma render_two_values (out_mask : list (list Z)) :
  Forall (Forall (fun v => v = 0 ∨ v = 255)) (render out_mask).
Proof.
  apply Forall_elementwise. intros m. destruct (m =? 1); auto.
Qed.

Lemma get2_clean (arr : list (list Z)) (t : Q) (h w i j : nat) :
  rect h w arr → (i < h)%nat → (j < w)%nat →
  get2 (render (majority_filter (to_mask (binarize arr t)))) i j =
  Some (if 5 <=? foreground_count (to_mask (binarize arr t)) i j then 0 else 255).
Proof.
  intros Hrect Hi Hj. unfold render. rewrite get2_elementwise.
  rewrite (majority_filter_get2 h w) by
    (done || by do 2 apply rect_elementwise).
  rewrite vote_count by apply to_mask_is_mask. simpl.
  by destruct (5 <=? _).
Qed.

Lemma elem_of_concat (x : Z) (ls : list (list Z)) :
  x ∈ concat ls ↔ ∃ l, x ∈ l ∧ l ∈ ls.
Proof.
  induction ls as [|l ls IH]; simpl.
  - split; [by intros ?%elem_of_nil | by intros (l & _ & ?%elem_of_nil)].
  - rewrite elem_of_app, IH. split.
    + intros [Hx | (l' & Hx & Hl')].
      * exists l. split; [done | by left].
      * exists l'. split; [done | by right].
    + intros (l' & Hx & Hl'). apply elem_of_cons in Hl' as [->|Hl'].
      * by left.
      * right. by exists l'.
Qed.

(** ** The threshold under rounding *)

Ltac qlra := unfold Qdiv in *; change (/ 2)%Q with (1 # 2)%Q in *; lra.

Lemma div_lower (k S N : Z) :
  0 < N → N ≤ 17592186044416 → k * N + 1 ≤ S →
  (inject_Z k + (1 # 17592186044416) <= inject_Z S / inject_Z N)%Q.
Proof.
  intros HN HN2 HS. apply Qle_shift_div_l.
  - change 0%Q with (inject_Z 0). rewrite <- Zlt_Qlt. lia.
  - assert (H1 : ((1 # 17592186044416) * inject_Z N <= 1)%Q).
    { unfold Qle, Qmult, inject_Z. cbn [Qnum Qden]. lia. }
    assert (H2 : (inject_Z k * inject_Z N + 1 <= inject_Z S)%Q).
    { rewrite <- inject_Z_mult. change 1%Q with (inject_Z 1).
      rewrite <- inject_Z_plus, <- Zle_Qle. lia. }
    lra.
Qed.

Lemma div_upper (k S N : Z) :
  0 < N → S ≤ k * N → (inject_Z S / inject_Z N <= inject_Z k)%Q.
Proof.
  intros HN HS. apply Qle_shift_div_r.
  - change 0%Q with (inject_Z 0). rewrite <- Zlt_Qlt. lia.
  - rewrite <- inject_Z_mult, <- Zle_Qle. lia.
Qed.

Section rounding.

Variable rnd : Q → Q.
Hypothesis rounding : binary64_rounding rnd.

Lemma rnd_mono (x y : Q) : (x <= y)%Q → (rnd x <= rnd y)%Q.
Proof. apply rounding. Qed.

Lemma rnd_grid (z : Z) (j : nat) (d : positive) :
  Z.abs z ≤ 2 ^ 53 → (j ≤ 60)%nat → Z.pos d = 2 ^ Z.of_nat j →
  (rnd (z # d) == z # d)%Q.
Proof.
  intros Hz Hj Hd. destruct rounding as [_ Hex].
  specialize (Hex z j Hz Hj). rewrite <- Hd in Hex.
  assert (E : (inject_Z z / inject_Z (Z.pos d) == z # d)%Q).
  { unfold Qeq, Qdiv, Qmult, Qinv, inject_Z. simpl. lia. }
  apply Qle_antisym.
  - rewrite <- E at 2. rewrite <- Hex. apply rnd_mono. rewrite E. apply Qle_refl.
  - rewrite <- E at 1. rewrite <- Hex. apply rnd_mono. rewrite E. apply Qle_refl.
Qed.

Lemma rnd_int (z : Z) : Z.abs z ≤ 2 ^ 53 → (rnd (inject_Z z) == inject_Z z)%Q.
Proof. intros Hz. apply (rnd_grid z 0 1); [done | lia | done]. Qed.

(** For 8-bit samples and up to 2^44 of them, the three roundings of
    the threshold change no comparison: a sample is below the computed
    threshold exactly when it is below (mean + minimum) / 2. *)
Lemma threshold_robust (p m S N : Z) :
  0 ≤ p ≤ 255 → 0 ≤ m ≤ 255 → 0 < N ≤ 17592186044416 →
  (inject_Z p < rnd (rnd (rnd (inject_Z S / inject_Z N) + inject_Z m) / 2))%Q ↔
  (inject_Z p < (inject_Z S / inject_Z N + inject_Z m) / 2)%Q.
Proof.
  intros Hp Hm HN.
  set (x := (inject_Z S / inject_Z N)%Q).
  set (k := 2 * p - m).
  assert (Hk : (inject_Z k == 2 * inject_Z p - inject_Z m)%Q).
  { unfold k. rewrite <- Z.add_opp_r, inject_Z_plus, inject_Z_opp, inject_Z_mult.
    ring. }
  assert (Hkb : -255 ≤ k ≤ 510) by (unfold k; lia).
  destruct (Z_lt_le_dec (k * N) S) as [Hlt|Hge].
  - assert (Hx : (inject_Z k + (1 # 17592186044416) <= x)%Q)
      by (apply div_lower; lia).
    clearbody x k. split; intros _; [qlra|].
    assert (G1 : (inject_Z k + (1 # 17592186044416) ==
                  (k * 17592186044416 + 1 # 17592186044416))%Q).
    { unfold Qeq, Qplus, inject_Z. cbn [Qnum Qden]. lia. }
    assert (R1 : (inject_Z k + (1 # 17592186044416) <= rnd x)%Q).
    { rewrite G1.
      rewrite <- (rnd_grid (k * 17592186044416 + 1) 44 17592186044416)
        by (lia || done).
      apply rnd_mono. rewrite <- G1. exact Hx. }
    assert (G2 : (2 * inject_Z p + (1 # 17592186044416) ==
                  (2 * p * 17592186044416 + 1 # 17592186044416))%Q).
    { unfold Qeq, Qplus, Qmult, inject_Z. cbn [Qnum Qden]. lia. }
    assert (R2 : (2 * inject_Z p + (1 # 17592186044416) <=
                  rnd (rnd x + inject_Z m))%Q).
    { rewrite G2.
      rewrite <- (rnd_grid (2 * p * 17592186044416 + 1) 44 17592186044416)
        by (lia || done).
      apply rnd_mono. rewrite <- G2. lra. }
    assert (G3 : (inject_Z p + (1 # 35184372088832) ==
                  (p * 35184372088832 + 1 # 35184372088832))%Q).
    { unfold Qeq, Qplus, Qmult, inject_Z. cbn [Qnum Qden]. lia. }
    assert (R3 : (inject_Z p + (1 # 35184372088832) <=
                  rnd (rnd (rnd x + inject_Z m) / 2))%Q).
    { rewrite G3.
      rewrite <- (rnd_grid (p * 35184372088832 + 1) 45 35184372088832)
        by (lia || done).
      apply rnd_mono. rewrite <- G3.
      assert (((1 # 35184372088832) == (1 # 17592186044416) * (1 # 2))%Q)
        by reflexivity.
      qlra. }
    qlra.
  - assert (Hx : (x <= inject_Z k)%Q) by (apply div_upper; lia).
    clearbody x k.
    assert (R1 : (rnd x <= inject_Z k)%Q).
    { rewrite <- (rnd_int k) by lia. by apply rnd_mono. }
    assert (R2 : (rnd (rnd x + inject_Z m) <= 2 * inject_Z p)%Q).
    { assert (E : (2 * inject_Z p == inject_Z (2 * p))%Q)
        by (rewrite inject_Z_mult; reflexivity).
      rewrite E. rewrite <- (rnd_int (2 * p)) by lia.
      apply rnd_mono. rewrite <- E. lra. }
    assert (R3 : (rnd (rnd (rnd x + inject_Z m) / 2) <= inject_Z p)%Q).
    { rewrite <- (rnd_int p) by lia. apply rnd_mono. qlra. }
    split; intros H; qlra.
Qed.

(** C3. In the image-cleaning step the threshold is one scalar for the
    whole smoothed image, computed as (mean of all pixels + minimum
    pixel) / 2, and a pixel is foreground in the mask exactly when its
    value is strictly below it; a pixel equal to the threshold is
    background.  The comparison with the computed threshold and the one
    with the exact value of the expression agree. *)
Theorem C3_global_threshold (arr : list (list Z)) (h w : nat) :
  rect h w arr → is_uint8 arr →
  (1 ≤ h)%nat → (1 ≤ w)%nat → Z.of_nat (h * w) ≤ 2 ^ 44 →
  ∃ (m : Z) (t : Q),
    np_min arr = Ok m ∧ m ∈ concat arr ∧ (∀ y, y ∈ concat arr → m ≤ y) ∧
    threshold_of rnd arr = Ok t ∧
    t = rnd (rnd (rnd (inject_Z (sum_row (concat arr)) /
                       inject_Z (Z.of_nat (h * w)))
                  + inject_Z m) / 2)%Q ∧
    clean_array rnd arr =
      Ok (render (majority_filter (to_mask (binarize arr t)))) ∧
    ∀ i j p, get2 arr i j = Some p →
      (get2 (to_mask (binarize arr t)) i j = Some 1 ↔ (inject_Z p < t)%Q) ∧
      (get2 (to_mask (binarize arr t)) i j = Some 0 ↔ (t <= inject_Z p)%Q) ∧
      ((inject_Z p < t)%Q ↔ (inject_Z p < spec_threshold arr m)%Q) ∧
      ((inject_Z p == spec_threshold arr m)%Q →
       get2 (to_mask (binarize arr t)) i j = Some 0).
Proof.
  intros Hrect Hu8 Hh Hw Hsize.
  destruct (np_min_rect h w arr Hrect Hh Hw) as (m & Hm & Hin & Hle).
  destruct (clean_array_ok rnd arr h w Hrect Hh Hw) as (m' & t & Hm' & Et & Ht & Hc).
  assert (m' = m) as -> by congruence.
  assert (Hrange : ∀ y, y ∈ concat arr → 0 ≤ y ≤ 255).
  { intros y Hy. apply elem_of_concat in Hy as (r & Hyr & Hr).
    unfold is_uint8 in Hu8. rewrite Forall_forall in Hu8.
    specialize (Hu8 r Hr). rewrite Forall_forall in Hu8. by apply Hu8. }
  assert (Et' : t = rnd (rnd (rnd (inject_Z (sum_row (concat arr)) /
                                   inject_Z (Z.of_nat (h * w)))
                              + inject_Z m) / 2)%Q).
  { rewrite Et. unfold np_mean. by rewrite np_sum_concat, (np_size_rect h w). }
  exists m, t. split; [done|]. split; [done|]. split; [done|].
  split; [done|]. split; [done|]. split; [done|].
  intros i j p Hp.
  assert (Hmask : get2 (to_mask (binarize arr t)) i j =
                  Some (Z.b2z (Qltb (inject_Z p) t)))
    by by rewrite get2_mask, Hp.
  assert (Hpr : 0 ≤ p ≤ 255).
  { apply Hrange. unfold get2 in Hp.
    destruct (arr !! i) as [r|] eqn:Hr; [|done]. simpl in Hp.
    apply elem_of_concat. exists r. split.
    - by eapply list_elem_of_lookup_2.
    - by eapply list_elem_of_lookup_2. }
  assert (Hrob : (inject_Z p < t)%Q ↔ (inject_Z p < spec_threshold arr m)%Q).
  { rewrite Et'. unfold spec_threshold.
    rewrite (length_concat_rect h w) by done.
    apply threshold_robust; [done | by apply Hrange | nia]. }
  split; [|split; [|split]].
  - rewrite Hmask. destruct (Qltb (inject_Z p) t) eqn:E.
    + apply Qltb_lt in E. done.
    + apply Qltb_ge in E. split; [by intros [=]|].
      intros Hlt. by apply Qlt_not_le in Hlt.
  - rewrite Hmask. destruct (Qltb (inject_Z p) t) eqn:E.
    + apply Qltb_lt in E. split; [by intros [=]|].
      intros Hge. by apply Qlt_not_le in E.
    + apply Qltb_ge in E. done.
  - done.
  - intros Heq. rewrite Hmask.
    destruct (Qltb (inject_Z p) t) eqn:E; [|done].
    apply Qltb_lt, Hrob in E. rewrite Heq in E. by apply Qlt_irrefl in E.
Qed.

End rounding.

Lemma exact_rounding : binary64_rounding exact.
Proof. split; [done|]. intros z j _ _. apply Qeq_refl. Qed.

Lemma C3_global_threshold_witness :
  let arr := [[10; 200]; [200; 30]] in
  ∃ (m : Z) (t : Q),
    np_min arr = Ok m ∧ m ∈ concat arr ∧ (∀ y, y ∈ concat arr → m ≤ y) ∧
    threshold_of exact arr = Ok t ∧
    t = exact (exact (exact (inject_Z (sum_row (concat arr)) /
                             inject_Z (Z.of_nat (2 * 2)))
                      + inject_Z m) / 2)%Q ∧
    clean_array exact arr =
      Ok (render (majority_filter (to_mask (binarize arr t)))) ∧
    ∀ i j p, get2 arr i j = Some p →
      (get2 (to_mask (binarize arr t)) i j = Some 1 ↔ (inject_Z p < t)%Q) ∧
      (get2 (to_mask (binarize arr t)) i j = Some 0 ↔ (t <= inject_Z p)%Q) ∧
      ((inject_Z p < t)%Q ↔ (inject_Z p < spec_threshold arr m)%Q) ∧
      ((inject_Z p == spec_threshold arr m)%Q →
       get2 (to_mask (binarize arr t)) i j = Some 0).
Proof.
  apply (C3_global_threshold exact exact_rounding [[10; 200]; [200; 30]] 2 2);
    [prove_rect | prove_uint8 | lia | lia | done].
Defined.

(** C4. The majority vote pads the mask with one pixel of background on
    every side and makes a pixel foreground exactly when at least 5 of
    the 9 pixels of its padded 3x3 neighbourhood (itself included) are
    foreground: an isolated foreground pixel becomes background, and the
    centre of a solid 3x3 foreground block stays foreground. *)
Theorem C4_majority_vote (mask : list (list Z)) (h w i j : nat) :
  rect h w mask → is_mask mask → (i < h)%nat → (j < w)%nat →
  rect (h + 2) (w + 2) (np_pad1 mask) ∧
  (∀ a b, at2 (np_pad1 mask) a b = padded mask a b) ∧
  (∀ a b, a = 0%nat ∨ b = 0%nat ∨ a = (h + 1)%nat ∨ b = (w + 1)%nat →
          at2 (np_pad1 mask) a b = 0) ∧
  np_sum (window (np_pad1 mask) i j) = foreground_count mask i j ∧
  (get2 (majority_filter mask) i j = Some 1 ↔ 5 ≤ foreground_count mask i j) ∧
  (get2 (majority_filter mask) i j = Some 0 ↔ foreground_count mask i j < 5) ∧
  (neighbourhood mask i j = [0; 0; 0; 0; 1; 0; 0; 0; 0] →
   get2 (majority_filter mask) i j = Some 0) ∧
  (neighbourhood mask i j = [1; 1; 1; 1; 1; 1; 1; 1; 1] →
   get2 (majority_filter mask) i j = Some 1).
Proof.
  intros Hrect Hm Hi Hj.
  assert (Hout : get2 (majority_filter mask) i j =
                 Some (if 5 <=? foreground_count mask i j then 1 else 0)).
  { rewrite (majority_filter_get2 h w) by done. by rewrite vote_count. }
  split; [apply rect_pad; [done | lia]|].
  split; [apply at2_pad|].
  split.
  { intros a b Hb. rewrite at2_pad. apply (padded_border h w); [done | lia]. }
  split.
  { rewrite window_sum_padded. unfold foreground_count.
    by rewrite sum_row_count by by apply neighbourhood_01. }
  rewrite Hout. repeat split.
  - destruct (Z.leb_spec 5 (foreground_count mask i j)); [done|]. by intros [=].
  - intros H5. apply Z.leb_le in H5. by rewrite H5.
  - destruct (Z.leb_spec 5 (foreground_count mask i j)); [by intros [=] | done].
  - intros H5. apply Z.leb_gt in H5. by rewrite H5.
  - intros E. unfold foreground_count. by rewrite E.
  - intros E. unfold foreground_count. by rewrite E.
Qed.

Lemma C4_majority_vote_witness :
  let speck := [[0; 0; 0]; [0; 1; 0]; [0; 0; 0]] in
  let block := [[1; 1; 1]; [1; 1; 1]; [1; 1; 1]] in
  get2 (majority_filter speck) 1 1 = Some 0 ∧
  get2 (majority_filter block) 1 1 = Some 1.
Proof.
  split.
  - apply (C4_majority_vote [[0; 0; 0]; [0; 1; 0]; [0; 0; 0]] 3 3 1 1);
      [prove_rect | prove_mask | lia | lia | reflexivity].
  - apply (C4_majority_vote [[1; 1; 1]; [1; 1; 1]; [1; 1; 1]] 3 3 1 1);
      [prove_rect | prove_mask | lia | lia | reflexivity].
Defined.

(** The mode "L" model meets the contract. *)
Lemma L_contract :
  pil_contract L.size L.grayscale L.median_filter3 L.np_array.
Proof.
  intros img. unfold L.np_array, L.median_filter3, L.grayscale. simpl. split.
  - by rewrite length_fmap, length_seq.
  - apply Forall_fmap, Forall_true. intros y. simpl.
    by rewrite length_fmap, length_seq.
Qed.

Section with_pil.

Context {image : Type}.
Variable rnd : Q → Q.
Variable size : image → nat * nat.
Variables grayscale median_filter3 : image → image.
Variable np_array : image → list (list Z).
Hypothesis contract : pil_contract size grayscale median_filter3 np_array.

Lemma clean_captcha_ok (img : image) :
  (1 ≤ fst (size img))%nat → (1 ≤ snd (size img))%nat →
  ∃ arr t,
    arr = astype_uint8 (np_array (median_filter3 (grayscale img))) ∧
    rect (snd (size img)) (fst (size img)) arr ∧
    is_uint8 arr ∧
    threshold_of rnd arr = Ok t ∧
    clean_captcha rnd grayscale median_filter3 np_array img =
    Ok (render (majority_filter (to_mask (binarize arr t)))).
Proof.
  intros Hw Hh.
  set (arr := astype_uint8 (np_array (median_filter3 (grayscale img)))).
  assert (Hrect : rect (snd (size img)) (fst (size img)) arr)
    by apply rect_elementwise, contract.
  destruct (clean_array_ok rnd arr _ _ Hrect Hh Hw) as (m & t & _ & _ & Ht & Hc).
  exists arr, t. split; [done|]. split; [done|]. split; [|done].
  apply Forall_elementwise. intros v.
  pose proof (Z.mod_pos_bound v 256). lia.
Qed.

(** C5. For an input image of size at least 1x1 the cleaned image has the
    dimensions of the input, and each of its pixels is 0 or 255. *)
Theorem C5_same_shape_two_values (img : image) :
  (1 ≤ fst (size img))%nat → (1 ≤ snd (size img))%nat →
  ∃ out,
    clean_captcha rnd grayscale median_filter3 np_array img = Ok out ∧
    rect (snd (size img)) (fst (size img)) out ∧
    Forall (Forall (fun v => v = 0 ∨ v = 255)) out.
Proof.
  intros Hw Hh.
  destruct (clean_captcha_ok img Hw Hh) as (arr & t & _ & Hrect & _ & _ & Hc).
  eexists. split; [exact Hc|]. split.
  - by apply rect_clean.
  - apply render_two_values.
Qed.

(** C10. The four corner pixels of the image returned by [clean_captcha]
    are 255: the padded 3x3 window of a corner holds at most four pixels
    of the mask, so its count of foreground pixels stays below 5. *)
Theorem C10_corners_background (img : image) :
  (1 ≤ fst (size img))%nat → (1 ≤ snd (size img))%nat →
  let w := fst (size img) in
  let h := snd (size img) in
  ∃ out mask,
    clean_captcha rnd grayscale median_filter3 np_array img =
    Ok (render (majority_filter mask)) ∧
    out = render (majority_filter mask) ∧
    foreground_count mask 0 0 ≤ 4 ∧
    foreground_count mask 0 (w - 1) ≤ 4 ∧
    foreground_count mask (h - 1) 0 ≤ 4 ∧
    foreground_count mask (h - 1) (w - 1) ≤ 4 ∧
    get2 out 0 0 = Some 255 ∧
    get2 out 0 (w - 1) = Some 255 ∧
    get2 out (h - 1) 0 = Some 255 ∧
    get2 out (h - 1) (w - 1) = Some 255.
Proof.
  intros Hw Hh w h.
  destruct (clean_captcha_ok img Hw Hh) as (arr & t & _ & Hrect & _ & _ & Hc).
  fold w h in Hrect.
  set (mask := to_mask (binarize arr t)) in *.
  assert (Hrm : rect h w mask) by by do 2 apply rect_elementwise.
  assert (Hm : is_mask mask) by apply to_mask_is_mask.
  assert (Hcorner : ∀ i j, i = 0%nat ∨ i = (h - 1)%nat →
                           j = 0%nat ∨ j = (w - 1)%nat →
            foreground_count mask i j ≤ 4 ∧
            get2 (render (majority_filter mask)) i j = Some 255).
  { intros i j Hi Hj.
    pose proof (corner_count h w mask i j Hrm Hm Hi Hj) as Hc4.
    split; [done|]. unfold mask.
    rewrite (get2_clean arr t h w) by (done || lia).
    fold mask.
    destruct (Z.leb_spec 5 (foreground_count mask i j)); [lia | done]. }
  exists (render (majority_filter mask)), mask.
  split; [exact Hc|]. split; [done|].
  destruct (Hcorner 0%nat 0%nat) as [? ?]; [by left..|].
  destruct (Hcorner 0%nat (w - 1)%nat) as [? ?]; [by left | by right|].
  destruct (Hcorner (h - 1)%nat 0%nat) as [? ?]; [by right | by left|].
  destruct (Hcorner (h - 1)%nat (w - 1)%nat) as [? ?]; [by right..|].
  done.
Qed.

End with_pil.

Lemma C5_same_shape_two_values_witness :
  let img := L.Image 4 3 [10; 10; 200; 200; 10; 10; 200; 200; 10; 10; 200; 200] in
  ∃ out,
    clean_captcha exact L.grayscale L.median_filter3 L.np_array img = Ok out ∧
    rect 3 4 out ∧
    Forall (Forall (fun v => v = 0 ∨ v = 255)) out.
Proof.
  apply (C5_same_shape_two_values exact L.size L.grayscale L.median_filter3
           L.np_array L_contract
           (L.Image 4 3 [10; 10; 200; 200; 10; 10; 200; 200; 10; 10; 200; 200]));
    simpl; lia.
Defined.

Lemma C10_corners_background_witness :
  let img := L.Image 2 2 [10; 10; 10; 200] in
  ∃ out mask,
    clean_captcha exact L.grayscale L.median_filter3 L.np_array img =
    Ok (render (majority_filter mask)) ∧
    out = render (majority_filter mask) ∧
    foreground_count mask 0 0 ≤ 4 ∧
    foreground_count mask 0 1 ≤ 4 ∧
    foreground_count mask 1 0 ≤ 4 ∧
    foreground_count mask 1 1 ≤ 4 ∧
    get2 out 0 0 = Some 255 ∧
    get2 out 0 1 = Some 255 ∧
    get2 out 1 0 = Some 255 ∧
    get2 out 1 1 = Some 255.
Proof.
  apply (C10_corners_background exact L.size L.grayscale L.median_filter3
           L.np_array L_contract (L.Image 2 2 [10; 10; 10; 200]));
    simpl; lia.
Defined.

End GrayFacts.

(** * Facts about the recognizer's post-processing *)
Module TrOCRFacts.
Import Py PyFacts.

(** The characters the post-processing of [run_ocr] keeps. *)
Definition kept (c : N) : bool :=
  negb (bool_decide (c = 46%N)) && negb (isspace c).

Lemma postprocess_filter (text : list N) :
  TrOCR.postprocess text = List.filter kept text.
Proof.
  unfold TrOCR.postprocess. by rewrite join_split, replace1_nil, filter_filter.
Qed.

Lemma translate_filter (table : gmap N (list N)) (p : N → bool) (s : list N) :
  translate table (List.filter p s) =
  s ≫= (fun c => if p c then
                   match table !! c with Some r => r | None => [c] end
                 else []).
Proof.
  induction s as [|c s IH]; [done|]. simpl List.filter.
  change ((c :: s) ≫= ?f) with (f c ++ (s ≫= f)). cbv beta.
  destruct (p c); [|by rewrite IH]. by rewrite translate_cons, IH.
Qed.

Lemma ocr_clean_of_pointwise (ocr_raw : list N) :
  TrOCRRunner.ocr_clean_of ocr_raw =
  ocr_raw ≫= (fun c => if isspace c then [] else TrOCRRunner.remap c).
Proof.
  unfold TrOCRRunner.ocr_clean_of. rewrite join_split, translate_filter.
  induction ocr_raw as [|c s IH]; [done|].
  change ((c :: s) ≫= ?f) with (f c ++ (s ≫= f)). cbv beta.
  rewrite IH. by destruct (isspace c).
Qed.

(** C6, as the code has it.  The post-processing of [run_ocr], in both
    files, deletes the full stops and the whitespace of the raw text and
    keeps every other character in order, so the raw text AB3.C D gives
    AB3CD.  The symbol table is applied by [process_file] of the batch
    runner only: there each of the nine mapped glyphs becomes its letter
    and each of the seven mapped punctuation characters is deleted,
    while a character outside the table is kept as it is. *)
Theorem C6_postprocessing (raw : list N) :
  TrOCR.postprocess raw = List.filter kept raw ∧
  TrOCRRunner.postprocess raw = TrOCR.postprocess raw ∧
  TrOCR.postprocess (u "AB3.C D") = u "AB3CD" ∧
  TrOCRRunner.ocr_clean_of raw =
    raw ≫= (fun c => if isspace c then [] else TrOCRRunner.remap c) ∧
  TrOCRRunner.ocr_clean_of [163; 64; 36; 33; 124; 167; 8364; 165; 162]%N
    = u "FASIISEYC" ∧
  TrOCRRunner.ocr_clean_of (u "?*#,.:'") = [] ∧
  ∀ c, TrOCRRunner.SYMBOL_MAP !! c = None ∧ isspace c = false ↔
       TrOCRRunner.ocr_clean_of [c] = [c].
Proof.
  split; [apply postprocess_filter|].
  split; [done|].
  split; [by vm_compute|].
  split; [apply ocr_clean_of_pointwise|].
  split; [by vm_compute|].
  split; [by vm_compute|].
  intros c. rewrite ocr_clean_of_pointwise.
  change ([c] ≫= ?f) with (f c ++ []). rewrite app_nil_r.
  unfold TrOCRRunner.remap. split.
  - intros [-> ->]. done.
  - destruct (isspace c); [done|].
    destruct (TrOCRRunner.SYMBOL_MAP !! c) as [r|] eqn:E; [|done].
    intros ->. exfalso. revert E.
    unfold TrOCRRunner.SYMBOL_MAP. intros E.
    apply elem_of_list_to_map_2 in E.
    repeat (apply elem_of_cons in E as [E|E]; [by inversion E|]).
    by apply elem_of_nil in E.
Qed.

(** C6 as the claim states it fails: the semicolon is punctuation, is
    not in the table, and survives both post-processings; and [run_ocr]
    of [services/TrOCR.py], the recognizer the scraper calls, leaves a
    commercial at as it is. *)
Lemma C6_unmapped_punctuation_kept :
  let raw := u "A;B" in
  TrOCRRunner.spec_stray_punctuation 59%N = true ∧
  TrOCRRunner.SYMBOL_MAP !! 59%N = None ∧
  TrOCRRunner.ocr_clean_of (TrOCRRunner.postprocess raw) = u "A;B" ∧
  59%N ∈ TrOCRRunner.ocr_clean_of (TrOCRRunner.postprocess raw) ∧
  TrOCR.postprocess (u "A@B") = u "A@B".
Proof.
  simpl. split; [done|]. split; [by vm_compute|]. split; [by vm_compute|].
  split; [|by vm_compute].
  replace (TrOCRRunner.ocr_clean_of (TrOCRRunner.postprocess (u "A;B")))
    with (u "A;B") by by vm_compute.
  apply list_elem_of_In. vm_compute. tauto.
Qed.

End TrOCRFacts.

(** * Facts about the scraper and its retry loop *)
Module ScraperFacts.
Import Py PyFacts Scraper.

Section facts.

Context {image : Type}.
Variable transport : nat → exchange.
Variable find_token : list N → option (option (list N)).
Variable Image_open : list Z → outcome image.
Variable run_ocr : image → outcome (list N).

#[local] Abbreviation run := (Scraper.run transport find_token Image_open run_ocr).
#[local] Abbreviation cycle := (Scraper.cycle find_token Image_open run_ocr).
#[local] Abbreviation retry_loop :=
  (Scraper.retry_loop transport find_token Image_open run_ocr).
#[local] Abbreviation main := (Scraper.main transport find_token Image_open run_ocr).

Ltac run_unfold :=
  unfold Scraper.run, try_except, run_body, new_session, session_get,
    requests_post, set_fields, get_state, put_state, lift, mbind, M_bind,
    bind, ret; simpl.

(** A full cycle runs to the end: [run] returns the body of the
    submission response and makes the requests of the cycle. *)
Lemma run_cycle (lns0 : list N) (st : state) (t : list event) (b : list N) :
  cycle (self st) lns0 (transport (clock st)) t b →
  ∃ st', run lns0 st = (Ok (VStr b), st') ∧
         clock st' = S (clock st) ∧
         trace st' = trace st ++ t ∧
         same_site (self st') (self st).
Proof.
  intros Hc.
  inversion Hc as [r tok path cap img tx rp Hi Ht Hs Hcap Himg Hocr Hr
                  | r tok rp Hi Ht Hs Hr]; subst.
  - run_unfold. rewrite Hi. simpl. rewrite Ht, Hs. simpl. rewrite Hcap. simpl.
    rewrite Himg. simpl. rewrite Hocr. simpl. rewrite Hr. simpl.
    eexists. split; [reflexivity|]. simpl.
    rewrite !(right_id_L ∅ (∪)), <- !app_assoc. done.
  - run_unfold. rewrite Hi. simpl. rewrite Ht, Hs. simpl. rewrite Hr. simpl.
    eexists. split; [reflexivity|]. simpl.
    rewrite !(right_id_L ∅ (∪)), <- !app_assoc. done.
Qed.

(** [run] always returns a value: every exception is caught. *)
Lemma run_total (lns0 : list N) (st : state) :
  ∃ v st', run lns0 st = (Ok v, st') ∧ clock st' = S (clock st) ∧
           same_site (self st') (self st).
Proof.
  assert (Hclose : ∀ (v : pyval) (st' : state),
             clock st' = S (clock st) → same_site (self st') (self st) →
             ∃ v0 st0, (Ok v, st') = (Ok v0, st0) ∧
                       clock st0 = S (clock st) ∧
                       same_site (self st0) (self st)) by eauto 6.
  run_unfold.
  destruct (index_page (transport (clock st))) as [r|e]; simpl;
    [|by apply Hclose].
  destruct (find_token (text r)) as [tok|]; simpl; [|by apply Hclose].
  destruct (search_captcha (text r)) as [path|]; simpl.
  - destruct (captcha_image (transport (clock st))) as [cap|e]; simpl;
      [|by apply Hclose].
    destruct (Image_open (content cap)) as [img|e]; simpl; [|by apply Hclose].
    destruct (run_ocr img) as [tx|e]; simpl; [|by apply Hclose].
    destruct (result_page (transport (clock st))) as [rp|e]; simpl;
      by apply Hclose.
  - destruct (result_page (transport (clock st))) as [rp|e]; simpl;
      by apply Hclose.
Qed.

Lemma cycle_same_site (s1 s2 : VTUScraper) (lns0 : list N) (x : exchange)
    (t : list event) (b : list N) :
  same_site s1 s2 → cycle s1 lns0 x t b → cycle s2 lns0 x t b.
Proof.
  intros (_ & Hb & Hi & Hr) Hc. destruct Hc; rewrite Hi, Hr, ?Hb.
  - by eapply cycle_captcha.
  - by eapply cycle_no_captcha.
Qed.

Lemma same_site_sym (s1 s2 : VTUScraper) : same_site s1 s2 → same_site s2 s1.
Proof. unfold same_site. intuition congruence. Qed.

Lemma same_site_trans (s1 s2 s3 : VTUScraper) :
  same_site s1 s2 → same_site s2 s3 → same_site s1 s3.
Proof. unfold same_site. intuition congruence. Qed.

(** A cycle makes exactly one submission POST. *)
Lemma cycle_one_post (sc : VTUScraper) (lns0 : list N) (x : exchange)
    (t : list event) (b : list N) :
  cycle sc lns0 x t b → length (posts t) = 1%nat ∧ ∃ t', t = Get (index_url sc) ∅ :: t'.
Proof. intros Hc. destruct Hc; split; by eauto. Qed.

Lemma posts_app (t1 t2 : list event) : posts (t1 ++ t2) = posts t1 ++ posts t2.
Proof. apply List.filter_app. Qed.

(** One iteration of the loop. *)
Lemma retry_step (fuel MAXR attempt : nat) (res v : pyval) (st st' : state) :
  (attempt < MAXR)%nat → run [] st = (Ok v, st') →
  retry_loop (S fuel) MAXR attempt res st =
  if py_in INVALID_CAPTCHA v
  then retry_loop fuel MAXR (attempt + 1) v st'
  else Some ((attempt + 1)%nat, v, st').
Proof.
  intros Hlt Hrun. apply Nat.ltb_lt in Hlt.
  cbn [Scraper.retry_loop]. rewrite Hlt, Hrun. done.
Qed.

Lemma retry_stop (fuel MAXR attempt : nat) (res : pyval) (st : state) :
  (MAXR ≤ attempt)%nat →
  retry_loop fuel MAXR attempt res st = Some (attempt, res, st).
Proof.
  intros Hge. apply Nat.ltb_ge in Hge.
  destruct fuel; cbn [Scraper.retry_loop]; by rewrite Hge.
Qed.

(** The loop ends, within its budget: with fuel for the attempts that
    remain it returns, after at most [MAXR] attempts in all, and [run]
    was called once for each attempt made. *)
Lemma retry_loop_total (fuel MAXR attempt : nat) (res : pyval) (st : state) :
  (MAXR - attempt ≤ fuel)%nat →
  ∃ n v st', retry_loop fuel MAXR attempt res st = Some (n, v, st') ∧
             (attempt ≤ n)%nat ∧ (n ≤ Nat.max attempt MAXR)%nat ∧
             clock st' = (clock st + (n - attempt))%nat.
Proof.
  revert attempt res st. induction fuel as [|fuel IH]; intros attempt res st Hf.
  - rewrite retry_stop by lia. exists attempt, res, st.
    repeat split; lia.
  - destruct (decide (attempt < MAXR)%nat) as [Hlt|Hge].
    + destruct (run_total [] st) as (v & st' & Hrun & Hclock & _).
      rewrite (retry_step _ _ _ _ v st st') by done.
      destruct (py_in INVALID_CAPTCHA v).
      * destruct (IH (attempt + 1)%nat v st') as (n & v' & st'' & -> & ? & ? & ?);
          [lia|].
        exists n, v', st''. repeat split; lia.
      * exists (attempt + 1)%nat, v, st'. repeat split; lia.
    + rewrite retry_stop by lia. exists attempt, res, st.
      repeat split; lia.
Qed.

(** As long as every attempt is a full cycle answered by the
    invalid-CAPTCHA marker, the loop goes on to the end of its budget and
    is left with the body of the last attempt. *)
Lemma retry_all_invalid (t : nat → list event) (b : nat → list N) (MAXR : nat) :
  ∀ (fuel attempt : nat) (res : pyval) (st : state),
    (attempt < MAXR)%nat → (MAXR - attempt ≤ fuel)%nat → clock st = attempt →
    (∀ k, (attempt ≤ k < MAXR)%nat →
          cycle (self st) [] (transport k) (t k) (b k) ∧
          contains INVALID_CAPTCHA (b k) = true) →
    ∃ st', retry_loop fuel MAXR attempt res st =
             Some (MAXR, VStr (b (MAXR - 1)%nat), st') ∧
           clock st' = MAXR ∧
           trace st' = trace st ++ concat (t <$> seq attempt (MAXR - attempt)) ∧
           same_site (self st') (self st).
Proof.
  induction fuel as [|fuel IH]; intros attempt res st Hlt Hf Hclock Hall; [lia|].
  subst attempt.
  destruct (Hall (clock st)) as [Hc Hinv]; [lia|].
  destruct (run_cycle [] st _ _ Hc) as (st1 & Hrun & Hclock1 & Htrace1 & Hsite1).
  rewrite (retry_step _ _ _ _ _ st st1 Hlt Hrun). unfold py_in. rewrite Hinv.
  destruct (decide (clock st + 1 < MAXR)%nat) as [Hmore|Hlast].
  - destruct (IH (clock st + 1)%nat (VStr (b (clock st))) st1) as
      (st' & Hloop & Hclock' & Htrace' & Hsite'); [lia | lia | lia | |].
    { intros k Hk. destruct (Hall k) as [Hck Hik]; [lia|]. split; [|done].
      apply (cycle_same_site (self st)); [|done].
      by apply same_site_sym. }
    exists st'. split; [done|]. split; [done|]. split.
    + rewrite Htrace', Htrace1, <- app_assoc. f_equal.
      replace (MAXR - clock st)%nat with (S (MAXR - (clock st + 1)))%nat by lia.
      simpl. by rewrite Nat.add_1_r.
    + by apply (same_site_trans _ (self st1)).
  - assert (MAXR = (clock st + 1)%nat) as -> by lia.
    rewrite retry_stop by lia. exists st1.
    replace (clock st + 1 - 1)%nat with (clock st) by lia.
    replace (clock st + 1 - clock st)%nat with 1%nat by lia.
    simpl. rewrite app_nil_r.
    split; [done|]. split; [lia|]. split; done.
Qed.

(** C1. When the submission responses of the first two attempts hold
    the invalid-CAPTCHA marker and the third does not, the loop with its
    budget of 5 makes exactly three full cycles and is left with the body
    of the third attempt, unchanged. *)
Theorem C1_third_attempt_returned (site : list N)
    (t1 t2 t3 : list event) (b1 b2 b3 : list N) :
  cycle (init site) [] (transport 0) t1 b1 →
  cycle (init site) [] (transport 1) t2 b2 →
  cycle (init site) [] (transport 2) t3 b3 →
  contains INVALID_CAPTCHA b1 = true →
  contains INVALID_CAPTCHA b2 = true →
  contains INVALID_CAPTCHA b3 = false →
  ∃ st, main site MAX_RETRY = Some (3%nat, VStr b3, st) ∧
        clock st = 3%nat ∧
        trace st = t1 ++ t2 ++ t3 ∧
        length (posts (trace st)) = 3%nat.
Proof.
  intros Hc1 Hc2 Hc3 Hi1 Hi2 Hi3. unfold Scraper.main, MAX_RETRY.
  destruct (run_cycle [] (initial site) t1 b1 Hc1)
    as (st1 & Hrun1 & Hk1 & Ht1 & Hs1).
  erewrite retry_step; [|lia|exact Hrun1].
  unfold py_in. rewrite Hi1.
  assert (Hc2' : cycle (self st1) [] (transport (clock st1)) t2 b2).
  { rewrite Hk1. apply (cycle_same_site (init site)); [|done].
    by apply same_site_sym. }
  destruct (run_cycle [] st1 t2 b2 Hc2') as (st2 & Hrun2 & Hk2 & Ht2 & Hs2).
  erewrite retry_step; [|lia|exact Hrun2].
  unfold py_in. rewrite Hi2.
  assert (Hc3' : cycle (self st2) [] (transport (clock st2)) t3 b3).
  { rewrite Hk2, Hk1. apply (cycle_same_site (init site)); [|done].
    apply same_site_sym, (same_site_trans _ (self st1)); done. }
  destruct (run_cycle [] st2 t3 b3 Hc3') as (st3 & Hrun3 & Hk3 & Ht3 & Hs3).
  erewrite retry_step; [|lia|exact Hrun3].
  unfold py_in. rewrite Hi3.
  exists st3. split; [done|]. split; [by rewrite Hk3, Hk2, Hk1|].
  assert (Htr : trace st3 = t1 ++ t2 ++ t3).
  { rewrite Ht3, Ht2, Ht1. simpl. by rewrite <- app_assoc. }
  split; [done|]. rewrite Htr, !posts_app, !length_app.
  destruct (cycle_one_post _ _ _ _ _ Hc1) as [-> _].
  destruct (cycle_one_post _ _ _ _ _ Hc2) as [-> _].
  destruct (cycle_one_post _ _ _ _ _ Hc3) as [-> _]. done.
Qed.

(** C2, as the code has it.  With a budget of 3 and the marker in every
    submission response, the loop stops after exactly three attempts and
    is left with the raw body of the third; that body is no failure
    descriptor. *)
Theorem C2_last_body_returned (site : list N)
    (t : nat → list event) (b : nat → list N) :
  (∀ k, (k < 3)%nat →
        cycle (init site) [] (transport k) (t k) (b k) ∧
        contains INVALID_CAPTCHA (b k) = true) →
  ∃ st, main site 3 = Some (3%nat, VStr (b 2%nat), st) ∧
        clock st = 3%nat ∧
        trace st = t 0%nat ++ t 1%nat ++ t 2%nat ∧
        length (posts (trace st)) = 3%nat ∧
        ¬ spec_retries_exhausted (VStr (b 2%nat)).
Proof.
  intros Hall. unfold Scraper.main.
  destruct (retry_all_invalid t b 3 3 0 (VStr []) (initial site))
    as (st & Hloop & Hclock & Htrace & _); [lia | lia | done | |].
  { intros k Hk. apply Hall. lia. }
  exists st. split; [done|]. split; [done|].
  simpl in Htrace. rewrite app_nil_r in Htrace.
  split; [done|]. split.
  - rewrite Htrace, !posts_app, !length_app.
    destruct (Hall 0%nat) as [H0 _]; [lia|].
    destruct (Hall 1%nat) as [H1 _]; [lia|].
    destruct (Hall 2%nat) as [H2 _]; [lia|].
    destruct (cycle_one_post _ _ _ _ _ H0) as [-> _].
    destruct (cycle_one_post _ _ _ _ _ H1) as [-> _].
    destruct (cycle_one_post _ _ _ _ _ H2) as [-> _]. done.
  - intros (d & msg & Hv & _). discriminate.
Qed.

Ltac fresh_close :=
  split; [reflexivity |
          eexists; split; rewrite <- ?app_assoc; reflexivity].

(** What [run] returns and requests depends on the site and on the
    exchange of the attempt only: the cookies, the payload and the
    session left by earlier attempts play no part. *)
Lemma run_fresh (lns0 : list N) (st1 st2 : state) :
  same_site (self st1) (self st2) → clock st1 = clock st2 →
  fst (run lns0 st1) = fst (run lns0 st2) ∧
  ∃ ev, trace (snd (run lns0 st1)) = trace st1 ++ ev ∧
        trace (snd (run lns0 st2)) = trace st2 ++ ev.
Proof.
  intros (_ & Hb & Hi & Hr) Hclk.
  destruct st1 as [s1 j1 c1 tr1], st2 as [s2 j2 c2 tr2]. simpl in *. subst c2.
  run_unfold. rewrite Hi, Hb, Hr.
  destruct (index_page (transport c1)) as [r|e]; simpl; [|fresh_close].
  destruct (find_token (text r)) as [tok|]; simpl; [|fresh_close].
  destruct (search_captcha (text r)) as [path|]; simpl.
  - destruct (captcha_image (transport c1)) as [cap|e]; simpl; [|fresh_close].
    destruct (Image_open (content cap)) as [img|e]; simpl; [|fresh_close].
    destruct (run_ocr img) as [tx|e]; simpl; [|fresh_close].
    destruct (result_page (transport c1)) as [rp|e]; simpl; fresh_close.
  - destruct (result_page (transport c1)) as [rp|e]; simpl; fresh_close.
Qed.

(** C7. When the first index page holds no token, [run] returns the
    token-not-found result at once: the index GET is the only request of
    the invocation, no submission POST is made, and the loop ends after
    this one attempt. *)
Theorem C7_token_not_found (site lns0 : list N) (budget : nat) (r : response) :
  index_page (transport 0) = Ok r → find_token (text r) = None →
  ∃ st,
    run lns0 (initial site) = (Ok (VStr (u "TOKEN NOT FOUND")), st) ∧
    trace st = [Get (index_url (init site)) ∅] ∧
    posts (trace st) = [] ∧
    main site (S budget) = Some (1%nat, VStr (u "TOKEN NOT FOUND"), st).
Proof.
  intros Hi Ht.
  assert (Hrun : ∀ l, run l (initial site) =
            (Ok (VStr (u "TOKEN NOT FOUND")),
             {| self := init site; session := set_cookies r ∪ ∅; clock := 1;
                trace := [Get (index_url (init site)) ∅] |})).
  { intros l. run_unfold. rewrite Hi. simpl. rewrite Ht. done. }
  eexists. split; [apply Hrun|]. split; [done|]. split; [done|].
  unfold Scraper.main. erewrite retry_step; [|lia|apply Hrun]. done.
Qed.

(** C8. Classification is string inspection: the loop retries exactly
    when the returned body holds the marker as a substring, and
    otherwise ends with that body as it is.  A retry is a new call of
    [run], whose requests (token, cookies and CAPTCHA text of the POST
    among them) are those of the new exchange alone. *)
Theorem C8_classification (body : list N) (fuel MAXR attempt : nat)
    (res : pyval) (st st' : state) :
  run [] st = (Ok (VStr body), st') → (attempt < MAXR)%nat →
  (py_in INVALID_CAPTCHA (VStr body) = true ↔
   ∃ pre post, body = pre ++ INVALID_CAPTCHA ++ post) ∧
  ((∃ pre post, body = pre ++ INVALID_CAPTCHA ++ post) →
   retry_loop (S fuel) MAXR attempt res st =
   retry_loop fuel MAXR (attempt + 1) (VStr body) st') ∧
  ((¬ ∃ pre post, body = pre ++ INVALID_CAPTCHA ++ post) →
   retry_loop (S fuel) MAXR attempt res st =
   Some ((attempt + 1)%nat, VStr body, st')) ∧
  (∀ t b, cycle (self st') [] (transport (clock st')) t b →
          ∃ st'', run [] st' = (Ok (VStr b), st'') ∧
                  trace st'' = trace st' ++ t) ∧
  (∀ st2, same_site (self st2) (self st') → clock st2 = clock st' →
          fst (run [] st2) = fst (run [] st') ∧
          ∃ ev, trace (snd (run [] st2)) = trace st2 ++ ev ∧
                trace (snd (run [] st')) = trace st' ++ ev).
Proof.
  intros Hrun Hlt. split; [apply contains_spec|].
  split; [|split; [|split]].
  - intros Hin. apply contains_spec in Hin.
    rewrite (retry_step _ _ _ _ _ _ _ Hlt Hrun). unfold py_in. by rewrite Hin.
  - intros Hout. apply contains_false in Hout.
    rewrite (retry_step _ _ _ _ _ _ _ Hlt Hrun). unfold py_in. by rewrite Hout.
  - intros t b Hc.
    destruct (run_cycle [] st' t b Hc) as (st'' & ? & _ & ? & _). eauto.
  - intros st2 Hs Hk. by apply run_fresh.
Qed.

(** C9, as the code has it.  When the index page refers to no CAPTCHA
    image the attempt goes on with an empty CAPTCHA text and makes its
    POST.  When fetching the image, decoding it or reading it raises,
    the attempt is given up: no POST is made, [run] returns the mapping
    of the key [error] to the message, and the loop, which finds no
    marker in it, ends with that value. *)
Theorem C9_captcha_failure_aborts (lns0 : list N) (st : state) (r : response)
    (tok : option (list N)) (e : list N) :
  index_page (transport (clock st)) = Ok r →
  find_token (text r) = Some tok →
  (search_captcha (text r) = None →
   ∀ rp, result_page (transport (clock st)) = Ok rp →
     ∃ st', run lns0 st = (Ok (VStr (text rp)), st') ∧
            posts (trace st') =
            posts (trace st) ++
            [Post (result_url (self st)) (set_cookies r)
                  {| Token := tok; lns := lns0; captchacode := [] |}]) ∧
  (∀ path, search_captcha (text r) = Some path →
     captcha_image (transport (clock st)) = Raise e ∨
     (∃ cap, captcha_image (transport (clock st)) = Ok cap ∧
             (Image_open (content cap) = Raise e ∨
              ∃ img, Image_open (content cap) = Ok img ∧
                     run_ocr img = Raise e)) →
     ∃ st', run lns0 st = (Ok (VDict {[ u "error" := e ]}), st') ∧
            posts (trace st') = posts (trace st) ∧
            py_in INVALID_CAPTCHA (VDict {[ u "error" := e ]}) = false ∧
            ∀ fuel MAXR attempt res,
              lns0 = [] → (attempt < MAXR)%nat →
              retry_loop (S fuel) MAXR attempt res st =
              Some ((attempt + 1)%nat, VDict {[ u "error" := e ]}, st')).
Proof.
  intros Hi Ht. split.
  - intros Hs rp Hr.
    destruct (run_cycle lns0 st _ _
                (cycle_no_captcha _ _ _ (self st) lns0 _ r tok rp Hi Ht Hs Hr))
      as (st' & Hrun & _ & Htr & _).
    exists st'. split; [done|]. by rewrite Htr, posts_app.
  - intros path Hs Hfail.
    assert (Hkey : py_in INVALID_CAPTCHA (VDict {[ u "error" := e ]}) = false).
    { unfold py_in. apply bool_decide_eq_false_2. intros [v Hv].
      by rewrite lookup_singleton_ne in Hv. }
    assert (Hrun : ∃ st', run lns0 st = (Ok (VDict {[ u "error" := e ]}), st') ∧
                          posts (trace st') = posts (trace st)).
    { run_unfold. rewrite Hi. simpl. rewrite Ht, Hs. simpl.
      destruct Hfail as [Hcap | (cap & Hcap & [Himg | (img & Himg & Hocr)])];
        rewrite Hcap; simpl; rewrite ?Himg; simpl; rewrite ?Hocr; simpl;
        (eexists; split; [reflexivity|]; simpl;
         rewrite <- ?app_assoc, posts_app; simpl; by rewrite app_nil_r). }
    destruct Hrun as (st' & Hrun & Hposts).
    exists st'. split; [done|]. split; [done|]. split; [done|].
    intros fuel MAXR attempt res -> Hlt.
    rewrite (retry_step _ _ _ _ _ _ _ Hlt Hrun). by rewrite Hkey.
Qed.

End facts.

(** ** The scripted scenarios *)

Abbreviation scripted_main transport :=
  (Scraper.main transport Script.find_token Script.Image_open Script.run_ocr).
Abbreviation scripted_run transport :=
  (Scraper.run transport Script.find_token Script.Image_open Script.run_ocr).

Lemma C1_third_attempt_returned_witness :
  ∃ st, scripted_main Script.third_time_lucky SITE MAX_RETRY =
          Some (3%nat, VStr Script.body_success, st) ∧
        clock st = 3%nat ∧
        length (posts (trace st)) = 3%nat.
Proof.
  edestruct (C1_third_attempt_returned Script.third_time_lucky
               Script.find_token Script.Image_open Script.run_ocr SITE)
    as (st & Hmain & Hclock & _ & Hposts).
  - eapply cycle_captcha; reflexivity.
  - eapply cycle_captcha; reflexivity.
  - eapply cycle_captcha; reflexivity.
  - reflexivity.
  - reflexivity.
  - reflexivity.
  - exists st. by repeat split.
Defined.

Lemma C2_last_body_returned_witness :
  ∃ st, scripted_main Script.always_invalid SITE 3 =
          Some (3%nat, VStr Script.body_invalid, st) ∧
        length (posts (trace st)) = 3%nat ∧
        ¬ spec_retries_exhausted (VStr Script.body_invalid).
Proof.
  edestruct (C2_last_body_returned Script.always_invalid
               Script.find_token Script.Image_open Script.run_ocr SITE
               (fun _ => [Get (index_url (init SITE)) ∅;
                          Post (result_url (init SITE))
                               (set_cookies (Script.page Script.page_plain))
                               {| Token := Some (u "tok"); lns := [];
                                  captchacode := [] |}])
               (fun _ => text (Script.page Script.body_invalid)))
    as (st & Hmain & _ & _ & Hposts & Hraw).
  - intros k _. split; [|reflexivity].
    apply cycle_no_captcha; reflexivity.
  - exists st. by repeat split.
Defined.

(** C2 as the claim states it fails: with a budget of 3 and the marker
    in every response, the value left after the three attempts is the
    raw body of the last response, which holds the marker and is not a
    retries-exhausted descriptor. *)
Lemma C2_raw_body_not_descriptor :
  fst <$> summary (scripted_main Script.always_invalid SITE 3) =
    Some (3%nat, VStr Script.body_invalid) ∧
  contains INVALID_CAPTCHA Script.body_invalid = true ∧
  ¬ spec_retries_exhausted (VStr Script.body_invalid).
Proof.
  split; [by vm_compute|]. split; [by vm_compute|].
  intros (d & msg & Hv & _). discriminate.
Qed.

Lemma C7_token_not_found_witness :
  ∃ st, scripted_run Script.token_missing [] (initial SITE) =
          (Ok (VStr (u "TOKEN NOT FOUND")), st) ∧
        posts (trace st) = [] ∧
        scripted_main Script.token_missing SITE MAX_RETRY =
          Some (1%nat, VStr (u "TOKEN NOT FOUND"), st).
Proof.
  edestruct (C7_token_not_found Script.token_missing
               Script.find_token Script.Image_open Script.run_ocr SITE [] 4)
    as (st & Hrun & _ & Hposts & Hmain).
  - reflexivity.
  - reflexivity.
  - exists st. by repeat split.
Defined.

Lemma C8_classification_witness :
  py_in INVALID_CAPTCHA (VStr Script.body_invalid) = true ↔
  ∃ pre post, Script.body_invalid = pre ++ INVALID_CAPTCHA ++ post.
Proof.
  apply (C8_classification Script.third_time_lucky
           Script.find_token Script.Image_open Script.run_ocr
           Script.body_invalid 0 1 0 (VStr []) (initial SITE)
           (snd (scripted_run Script.third_time_lucky [] (initial SITE)))).
  - by vm_compute.
  - lia.
Defined.

Lemma C9_captcha_failure_aborts_witness :
  ∃ st, scripted_run Script.captcha_unreachable [] (initial SITE) =
          (Ok (VDict {[ u "error" := u "Read timed out." ]}), st) ∧
        posts (trace st) = [].
Proof.
  edestruct (C9_captcha_failure_aborts Script.captcha_unreachable
               Script.find_token Script.Image_open Script.run_ocr
               [] (initial SITE)) with (e := u "Read timed out.")
    as [_ Habort].
  - reflexivity.
  - reflexivity.
  - edestruct Habort as (st & Hrun & Hposts & _).
    + reflexivity.
    + by left.
    + exists st. by split.
Defined.

(** C9 as the claim states it fails: when the CAPTCHA image cannot be
    fetched, or cannot be decoded, the attempt makes no submission POST;
    the main block ends after this one attempt with the error mapping. *)
Lemma C9_failed_captcha_no_post :
  summary (scripted_main Script.captcha_unreachable SITE MAX_RETRY) =
    Some (1%nat, VDict {[ u "error" := u "Read timed out." ]}, []) ∧
  summary (scripted_main Script.captcha_undecodable SITE MAX_RETRY) =
    Some (1%nat, VDict {[ u "error" := u "cannot identify image file" ]}, []).
Proof. split; by vm_compute. Qed.

End ScraperFacts.

(** * Further facts about the scraper *)
Module ScraperMore.
Import Py PyFacts Scraper ScraperFacts.

Section more.

Context {image : Type}.
Variable transport : nat → exchange.
Variable find_token : list N → option (option (list N)).
Variable Image_open : list Z → outcome image.
Variable run_ocr : image → outcome (list N).

#[local] Abbreviation run := (Scraper.run transport find_token Image_open run_ocr).
#[local] Abbreviation retry_loop :=
  (Scraper.retry_loop transport find_token Image_open run_ocr).
#[local] Abbreviation main := (Scraper.main transport find_token Image_open run_ocr).

(** Every path through [run], one goal for each. *)
Ltac run_paths st :=
  unfold Scraper.run, try_except, run_body, new_session, session_get,
    requests_post, set_fields, get_state, put_state, lift, mbind, M_bind,
    bind, ret; simpl;
  destruct (index_page (transport (clock st))) as [r|e]; simpl;
  [ destruct (find_token (text r)) as [tok|]; simpl;
    [ destruct (search_captcha (text r)) as [path|]; simpl;
      [ destruct (captcha_image (transport (clock st))) as [cap|e]; simpl;
        [ destruct (Image_open (content cap)) as [img|e]; simpl;
          [ destruct (run_ocr img) as [tx|e] eqn:Hocr; simpl;
            [ destruct (result_page (transport (clock st))) as [rp|e]; simpl
            | ]
          | ]
        | ]
      | destruct (result_page (transport (clock st))) as [rp|e]; simpl ]
    | ]
  | ].

(** X1. One call of [run] never raises and makes between one and three
    requests: the index GET first, then at most one more GET, then at
    most one submission POST, which is the last request when there is
    one. *)
Theorem run_requests (lns0 : list N) (st : state) :
  ∃ v st' rest,
    run lns0 st = (Ok v, st') ∧
    clock st' = S (clock st) ∧
    trace st' = trace st ++ Get (index_url (self st)) ∅ :: rest ∧
    (length rest ≤ 2)%nat ∧
    (posts rest = [] ∨ ∃ e, posts rest = [e] ∧ last rest = Some e) ∧
    (length (List.filter (fun e => negb (is_post e)) rest) ≤ 1)%nat.
Proof.
  run_paths st;
    (do 3 eexists; split; [reflexivity|]; split; [done|];
     split; [rewrite <- ?app_assoc; simpl; reflexivity|];
     simpl; split; [lia|]; split; [|lia]; first [by left | right; by eexists]).
Qed.

(** X2. After a call of [run] the fields [cookies] and
    [result_payload] of the object describe the last submission
    attempted: a call that makes a POST leaves in them the cookies and
    the form data of that POST, for the lookup identifier it was given;
    a call that makes no POST leaves them as they were. *)
Theorem run_fields (lns0 : list N) (st : state) :
  ∃ v st' ev,
    run lns0 st = (Ok v, st') ∧ trace st' = trace st ++ ev ∧
    ((posts ev = [] ∧
      cookies (self st') = cookies (self st) ∧
      result_payload (self st') = result_payload (self st)) ∨
     (∃ cks data,
        posts ev = [Post (result_url (self st)) cks data] ∧
        cookies (self st') = Some cks ∧
        result_payload (self st') = Some data ∧
        lns data = lns0)).
Proof.
  run_paths st;
    (do 3 eexists; split; [reflexivity|];
     split; [rewrite <- ?app_assoc; simpl; reflexivity|];
     simpl; first [by left | right; by do 2 eexists]).
Qed.

(** What [run] returns is a string or the error mapping of one raised
    exception, never another mapping. *)
Lemma run_dict (lns0 : list N) (st st' : state) (d : gmap (list N) (list N)) :
  run lns0 st = (Ok (VDict d), st') → ∃ e, d = {[ u "error" := e ]}.
Proof.
  run_paths st; intros [= <- _] || intros [= _]; by eexists.
Qed.

Lemma error_not_marker (e : list N) :
  py_in INVALID_CAPTCHA (VDict {[ u "error" := e ]}) = false.
Proof.
  unfold py_in. apply bool_decide_eq_false_2. intros [v Hv].
  by rewrite lookup_singleton_ne in Hv.
Qed.

(** X3. No exception is retried.  When [run] returns a mapping, it is
    the error mapping of a raised exception, and the loop ends with it at
    once, whatever the message says.  A transport error on the index GET
    is such a case: the GET is the only request of the attempt. *)
Theorem errors_end_the_loop (st st' : state) (d : gmap (list N) (list N))
    (fuel MAXR attempt : nat) (res : pyval) :
  run [] st = (Ok (VDict d), st') → (attempt < MAXR)%nat →
  (∃ e, d = {[ u "error" := e ]}) ∧
  retry_loop (S fuel) MAXR attempt res st =
    Some ((attempt + 1)%nat, VDict d, st') ∧
  (∀ e, index_page (transport (clock st)) = Raise e →
        d = {[ u "error" := e ]} ∧
        trace st' = trace st ++ [Get (index_url (self st)) ∅]).
Proof.
  intros Hrun Hlt.
  assert (Hindex : ∀ e, index_page (transport (clock st)) = Raise e →
            d = {[ u "error" := e ]} ∧
            trace st' = trace st ++ [Get (index_url (self st)) ∅]).
  { intros e He. revert Hrun.
    unfold Scraper.run, try_except, run_body, new_session, session_get,
      requests_post, set_fields, get_state, put_state, lift, mbind, M_bind,
      bind, ret; simpl.
    rewrite He. simpl. intros Heq. by simplify_eq. }
  destruct (run_dict _ _ _ _ Hrun) as [e0 ->].
  split; [by eexists|]. split; [|done].
  erewrite retry_step; [|exact Hlt|exact Hrun]. by rewrite error_not_marker.
Qed.

Lemma run_posts (lns0 : list N) (st : state) :
  ∃ v st', run lns0 st = (Ok v, st') ∧ clock st' = S (clock st) ∧
           (length (posts (trace st')) ≤ S (length (posts (trace st))))%nat.
Proof.
  run_paths st;
    (do 2 eexists; split; [reflexivity|]; split; [done|];
     simpl; rewrite ?posts_app, ?length_app; simpl; lia).
Qed.

(** What the loop leaves, read off a finished run of it. *)
Lemma retry_loop_inv (fuel MAXR : nat) :
  ∀ (attempt : nat) (res : pyval) (st : state) (n : nat) (v : pyval) (st' : state),
    retry_loop fuel MAXR attempt res st = Some (n, v, st') →
    (attempt ≤ n)%nat ∧ (n ≤ Nat.max attempt MAXR)%nat ∧
    clock st' = (clock st + (n - attempt))%nat ∧
    (length (posts (trace st')) ≤ length (posts (trace st)) + (n - attempt))%nat ∧
    ((n = attempt ∧ v = res ∧ st' = st ∧ (MAXR ≤ attempt)%nat) ∨
     ((attempt < n)%nat ∧ (py_in INVALID_CAPTCHA v = true → n = MAXR))).
Proof.
  induction fuel as [|fuel IH]; intros attempt res st n v st' Hloop.
  - destruct (decide (attempt < MAXR)%nat) as [Hlt|Hge].
    + apply Nat.ltb_lt in Hlt. cbn [Scraper.retry_loop] in Hloop.
      by rewrite Hlt in Hloop.
    + rewrite retry_stop in Hloop by lia. simplify_eq.
      split; [lia|]. split; [lia|]. split; [lia|]. split; [lia|].
      left. repeat split; lia.
  - destruct (decide (attempt < MAXR)%nat) as [Hlt|Hge].
    + destruct (run_posts [] st) as (v1 & st1 & Hrun & Hclock & Hposts).
      erewrite retry_step in Hloop; [|exact Hlt|exact Hrun].
      destruct (py_in INVALID_CAPTCHA v1) eqn:Hin.
      * apply IH in Hloop as (? & ? & Hc & Hp & Hcase).
        split; [lia|]. split; [lia|]. split; [lia|]. split; [lia|].
        right. split; [lia|].
        destruct Hcase as [(-> & -> & -> & ?) | [_ Hm]]; [|done].
        intros _. lia.
      * simplify_eq. split; [lia|]. split; [lia|]. split; [lia|].
        split; [lia|]. right. split; [lia|]. by rewrite Hin.
    + rewrite retry_stop in Hloop by lia. simplify_eq.
      split; [lia|]. split; [lia|]. split; [lia|]. split; [lia|].
      left. repeat split; lia.
Qed.

(** X4. The main block always ends, after at most [MAX_RETRY]
    attempts (and at least one when the budget is not zero).  [run] was
    called once for each attempt, no more submission POSTs were made than
    attempts, and when the value left still holds the marker the whole
    budget was used: the loop stops early only on a value without the
    marker.  With a budget of zero nothing is requested and the empty
    string is left. *)
Theorem main_bounded (site : list N) (MAXR : nat) :
  ∃ n v st,
    main site MAXR = Some (n, v, st) ∧
    (n ≤ MAXR)%nat ∧ ((1 ≤ MAXR)%nat → (1 ≤ n)%nat) ∧
    clock st = n ∧
    (length (posts (trace st)) ≤ n)%nat ∧
    (py_in INVALID_CAPTCHA v = true → n = MAXR) ∧
    (MAXR = 0%nat → v = VStr [] ∧ trace st = []).
Proof.
  unfold Scraper.main.
  destruct (retry_loop_total transport find_token Image_open run_ocr
              MAXR MAXR 0 (VStr []) (initial site))
    as (n & v & st & Hloop & _); [lia|].
  exists n, v, st. split; [done|].
  pose proof (retry_loop_inv _ _ _ _ _ _ _ _ Hloop)
    as (H0 & Hmax & Hclock & Hposts & Hcase).
  simpl in Hclock, Hposts.
  split; [lia|]. split.
  { intros Hpos. destruct Hcase as [(-> & _ & _ & ?) | [? _]]; lia. }
  split; [lia|]. split; [lia|]. split.
  - intros Hin. destruct Hcase as [(-> & -> & _) | [_ Hm]]; [done|].
    by apply Hm.
  - intros ->. destruct Hcase as [(_ & -> & -> & _) | [? _]]; [done|lia].
Qed.

(** X5. Attempts do not feed one another: a call of [run] returns
    the same value and makes the same requests, with the same cookies,
    whatever session cookies, [cookies] field and [result_payload] field
    an earlier call has left. *)
Theorem attempts_independent (lns0 : list N) (st : state)
    (s' : gmap (list N) (list N)) (c' : option (gmap (list N) (list N)))
    (p' : option payload) :
  let st2 :=
    {| self := {| site_path := site_path (self st); base := base (self st);
                  index_url := index_url (self st);
                  result_url := result_url (self st);
                  cookies := c'; result_payload := p';
                  timeout := timeout (self st);
                  verify_ssl := verify_ssl (self st) |};
       session := s'; clock := clock st; trace := trace st |} in
  ∃ v st1' st2' ev,
    run lns0 st = (Ok v, st1') ∧ run lns0 st2 = (Ok v, st2') ∧
    trace st1' = trace st ++ ev ∧ trace st2' = trace st ++ ev ∧
    session st1' = session st2' ∧ clock st1' = clock st2'.
Proof.
  run_paths st;
    (do 4 eexists; split; [reflexivity|]; split; [reflexivity|];
     split; [rewrite <- ?app_assoc; simpl; reflexivity|];
     split; [rewrite <- ?app_assoc; simpl; reflexivity|]; done).
Qed.

(** The CAPTCHA code of a submission is the empty default or the
    stripped text of one reading. *)
Lemma run_post_code (lns0 : list N) (st : state) :
  ∃ v st' ev,
    run lns0 st = (Ok v, st') ∧ trace st' = trace st ++ ev ∧
    ∀ url cks data, Post url cks data ∈ ev →
      captchacode data = [] ∨
      ∃ img t, run_ocr img = Ok t ∧ captchacode data = strip t.
Proof.
  run_paths st;
    (do 3 eexists; split; [reflexivity|];
     split; [rewrite <- ?app_assoc; simpl; reflexivity|];
     intros url cks data Hin;
     repeat (apply elem_of_cons in Hin as [Hin|Hin];
             [try discriminate Hin; injection Hin as -> -> ->; simpl;
              first [by left | right; by do 2 eexists]|]);
     by apply elem_of_nil in Hin).
Qed.

End more.

(** ** The CAPTCHA reference in the index page *)

Lemma span_spec (p : N → bool) (s a b : list N) :
  span p s = (a, b) →
  s = a ++ b ∧ Forall (fun c => p c = true) a ∧
  match b with [] => True | c :: _ => p c = false end.
Proof.
  revert a b. induction s as [|c s IH]; intros a b; simpl.
  - intros [= <- <-]. by repeat split.
  - destruct (p c) eqn:Hc.
    + destruct (span p s) as [a' b'] eqn:E. intros [= <- <-].
      destruct (IH a' b' eq_refl) as (-> & Ha & Hb).
      split; [done|]. split; [by apply Forall_cons_2|done].
    + intros [= <- <-]. by repeat split.
Qed.

Lemma span_app (p : N → bool) (a b : list N) :
  Forall (fun c => p c = true) a →
  match b with [] => True | c :: _ => p c = false end →
  span p (a ++ b) = (a, b).
Proof.
  intros Ha Hb. induction Ha as [|c a Hc _ IH]; simpl.
  - destruct b as [|c b]; [done|]. simpl. by rewrite Hb.
  - by rewrite Hc, IH.
Qed.

Lemma not_quote_Forall (name : list N) :
  quote ∉ name ↔ Forall (fun c => negb (N.eqb c quote) = true) name.
Proof.
  rewrite Forall_forall. split.
  - intros Hq c Hc. apply negb_true_iff, N.eqb_neq. by intros ->.
  - intros Hall Hq. specialize (Hall _ Hq). by rewrite N.eqb_refl in Hall.
Qed.

(** A match at the start of the text. *)
Lemma match_captcha_at_spec (s g : list N) :
  match_captcha_at s = Some g ↔
  ∃ name rest, s = opening ++ name ++ quote :: rest ∧
               name ≠ [] ∧ (quote ∉ name) ∧ g = u "/captcha/" ++ name.
Proof.
  unfold match_captcha_at. cbv zeta.
  change (u "src=" ++ [quote] ++ u "/captcha/") with opening. split.
  - destruct (startswith opening s) eqn:Hs; [|done].
    apply startswith_spec in Hs as [t ->].
    rewrite drop_app_length.
    destruct (span _ t) as [name rest] eqn:E.
    apply span_spec in E as (-> & Hname & Hrest).
    destruct name as [|c name]; [done|]. destruct rest as [|q rest]; [done|].
    intros [= <-]. apply negb_false_iff, N.eqb_eq in Hrest as ->.
    exists (c :: name), rest. split; [done|]. split; [done|].
    split; [|done]. by apply not_quote_Forall.
  - intros (name & rest & -> & Hne & Hq & ->).
    assert (Hs : startswith opening (opening ++ name ++ quote :: rest) = true)
      by (apply startswith_spec; by eexists).
    rewrite Hs, drop_app_length.
    rewrite span_app; [| by apply not_quote_Forall | by rewrite N.eqb_refl].
    by destruct name.
Qed.

Lemma search_captcha_here (s g : list N) :
  match_captcha_at s = Some g → search_captcha s = Some g.
Proof.
  intros H. destruct s as [|c s]; cbn [search_captcha]; by rewrite H.
Qed.

(** X6. What the search for the CAPTCHA reference finds is in the
    page: the page holds, somewhere, [src=] and the found path between
    double quotes, and the path is [/captcha/] followed by at least one
    character, none of them a double quote. *)
Theorem search_captcha_sound (html g : list N) :
  search_captcha html = Some g →
  ∃ before name rest,
    html = before ++ u "src=" ++ [quote] ++ g ++ quote :: rest ∧
    g = u "/captcha/" ++ name ∧ name ≠ [] ∧ quote ∉ name.
Proof.
  induction html as [|c html IH]; simpl.
  - destruct (match_captcha_at []) as [g'|] eqn:E; [|done].
    apply match_captcha_at_spec in E as (name & rest & E & _). by destruct name.
  - destruct (match_captcha_at (c :: html)) as [g'|] eqn:E.
    + intros [= ->]. apply match_captcha_at_spec in E
        as (name & rest & E & Hne & Hq & ->).
      exists [], name, rest. split; [|done].
      rewrite E. unfold opening. by rewrite <- !app_assoc.
    + intros Hs. destruct (IH Hs) as (before & name & rest & -> & Hg & Hne & Hq).
      by exists (c :: before), name, rest.
Qed.

Lemma search_captcha_sound_witness :
  ∃ before name rest,
    Script.page_captcha =
      before ++ u "src=" ++ [quote] ++ u "/captcha/c.png" ++ quote :: rest ∧
    u "/captcha/c.png" = u "/captcha/" ++ name ∧ name ≠ [] ∧ quote ∉ name.
Proof.
  apply (search_captcha_sound Script.page_captcha (u "/captcha/c.png")).
  reflexivity.
Defined.

(** X7. The search misses no reference: a page that holds, anywhere,
    [src=], a double quote, [/captcha/], one or more characters other
    than a double quote, and a double quote, yields a path; a page that
    yields none holds no such text. *)
Theorem search_captcha_complete (before name rest : list N) :
  name ≠ [] → quote ∉ name →
  is_Some (search_captcha (before ++ opening ++ name ++ quote :: rest)).
Proof.
  intros Hne Hq. induction before as [|c before IH].
  - apply (mk_is_Some _ (u "/captcha/" ++ name)), search_captcha_here.
    apply match_captcha_at_spec. by exists name, rest.
  - cbn [app search_captcha]. destruct (match_captcha_at _); [done | exact IH].
Qed.

Lemma search_captcha_complete_witness :
  is_Some (search_captcha
             (u "<img " ++ opening ++ u "7.jpg" ++ quote :: u "/>")).
Proof.
  apply (search_captcha_complete (u "<img ") (u "7.jpg") (u "/>")).
  - done.
  - apply not_quote_Forall. by repeat (apply Forall_cons_2; [done|]).
Defined.

Lemma errors_end_the_loop_witness :
  ∃ e, ({[ u "error" := u "Read timed out." ]} : gmap (list N) (list N))
       = {[ u "error" := e ]}.
Proof.
  apply (errors_end_the_loop Script.captcha_unreachable Script.find_token
           Script.Image_open Script.run_ocr (initial SITE)
           (snd (scripted_run Script.captcha_unreachable [] (initial SITE)))
           {[ u "error" := u "Read timed out." ]} 0 1 0 (VStr [])).
  - by vm_compute.
  - lia.
Defined.

(** ** The site path *)

Lemma lstrip_by_spec (p : N → bool) (s : list N) :
  ∃ a, s = a ++ lstrip_by p s ∧ Forall (holds p) a ∧
       ∀ c, head (lstrip_by p s) = Some c → p c = false.
Proof.
  induction s as [|c s (a & Hs & Ha & Hh)]; simpl.
  - exists []. by repeat split.
  - destruct (p c) eqn:Hc.
    + exists (c :: a). split; [by rewrite Hs at 1|].
      split; [by apply Forall_cons_2 | done].
    + exists []. split; [done|]. split; [done|]. by intros ? [= <-].
Qed.

Lemma lstrip_by_skip (p : N → bool) (a s : list N) :
  Forall (holds p) a → lstrip_by p (a ++ s) = lstrip_by p s.
Proof. induction 1 as [|c a Hc _ IH]; simpl; [done|]. by rewrite Hc. Qed.

Lemma lstrip_by_id (p : N → bool) (s : list N) :
  (∀ c, head s = Some c → p c = false) → lstrip_by p s = s.
Proof. destruct s as [|c s]; simpl; [done|]. intros H. by rewrite H. Qed.

Lemma head_rev (s : list N) : head (rev s) = last s.
Proof. rewrite rev_alt. apply (head_reverse s). Qed.

Lemma rstrip_by_spec (p : N → bool) (s : list N) :
  ∃ b, s = rstrip_by p s ++ b ∧ Forall (holds p) b ∧
       ∀ c, last (rstrip_by p s) = Some c → p c = false.
Proof.
  unfold rstrip_by. destruct (lstrip_by_spec p (rev s)) as (a & Hs & Ha & Hh).
  exists (rev a). split; [|split].
  - rewrite <- rev_app_distr, <- Hs. by rewrite rev_involutive.
  - rewrite rev_alt. by apply (Forall_reverse (holds p) a).
  - intros c Hc. apply Hh. by rewrite <- Hc, <- head_rev, rev_involutive.
Qed.

Lemma rstrip_by_skip (p : N → bool) (s b : list N) :
  Forall (holds p) b → rstrip_by p (s ++ b) = rstrip_by p s.
Proof.
  intros Hb. unfold rstrip_by. rewrite rev_app_distr, lstrip_by_skip; [done|].
  rewrite rev_alt. by apply (Forall_reverse (holds p) b).
Qed.

Lemma rstrip_by_id (p : N → bool) (s : list N) :
  (∀ c, last s = Some c → p c = false) → rstrip_by p s = s.
Proof.
  intros H. unfold rstrip_by. rewrite lstrip_by_id; [apply rev_involutive|].
  intros c Hc. apply H. by rewrite <- head_rev.
Qed.

(** Stripping removes a run of strippable characters at each end and
    stops at the first character, from either end, that is not. *)
Lemma strip_by_spec (p : N → bool) (s : list N) :
  ∃ a b, s = a ++ strip_by p s ++ b ∧
         Forall (holds p) a ∧ Forall (holds p) b ∧
         (∀ c, head (strip_by p s) = Some c → p c = false) ∧
         (∀ c, last (strip_by p s) = Some c → p c = false).
Proof.
  unfold strip_by.
  destruct (lstrip_by_spec p s) as (a & Hs & Ha & Hh).
  destruct (rstrip_by_spec p (lstrip_by p s)) as (b & Hl & Hb & Hlast).
  exists a, b. split; [by rewrite <- Hl|]. split; [done|]. split; [done|].
  split; [|done]. intros c Hc. apply Hh. rewrite Hl.
  destruct (rstrip_by p (lstrip_by p s)); [done|]. exact Hc.
Qed.

Lemma strip_by_wrapped (p : N → bool) (a core b : list N) :
  Forall (holds p) a → Forall (holds p) b →
  (∀ c, head core = Some c → p c = false) →
  (∀ c, last core = Some c → p c = false) →
  strip_by p (a ++ core ++ b) = core.
Proof.
  intros Ha Hb Hh Hl. unfold strip_by.
  rewrite lstrip_by_skip by done.
  destruct core as [|c core].
  - simpl. destruct (lstrip_by_spec p b) as (a' & Hs & Ha' & Hh').
    assert (Hall : Forall (holds p) (lstrip_by p b)).
    { rewrite Hs in Hb. by apply Forall_app in Hb as [_ ?]. }
    destruct (lstrip_by p b) as [|c l]; [done|].
    apply Forall_cons in Hall as [Hc _]. specialize (Hh' c eq_refl).
    unfold holds in Hc. congruence.
  - rewrite lstrip_by_id by (intros ? [= <-]; by apply Hh).
    rewrite rstrip_by_skip by done. by apply rstrip_by_id.
Qed.

Lemma strip_by_id (p : N → bool) (core : list N) :
  (∀ c, head core = Some c → p c = false) →
  (∀ c, last core = Some c → p c = false) →
  strip_by p core = core.
Proof.
  intros Hh Hl.
  pose proof (strip_by_wrapped p [] core [] (Forall_nil_2 _) (Forall_nil_2 _)
                Hh Hl) as H.
  simpl in H. by rewrite app_nil_r in H.
Qed.

Lemma is_slash_spec (c : N) : is_slash c = true ↔ c = 47%N.
Proof.
  unfold is_slash. rewrite bool_decide_eq_true. change (u "/") with [47%N].
  apply list_elem_of_singleton.
Qed.

(** X8. The site path kept by the constructor is the argument
    without the whitespace at its two ends and then without the slashes
    at its two ends: it neither begins nor ends with a slash, and the two
    URLs are the base, a slash, this path, a slash and the page name. *)
Theorem init_site_path (site0 : list N) :
  let sc := init site0 in
  (∃ w1 a b w2,
     site0 = w1 ++ a ++ site_path sc ++ b ++ w2 ∧
     Forall (holds isspace) w1 ∧ Forall (holds isspace) w2 ∧
     Forall (fun c => c = 47%N) a ∧ Forall (fun c => c = 47%N) b) ∧
  head (site_path sc) ≠ Some 47%N ∧
  last (site_path sc) ≠ Some 47%N ∧
  index_url sc = u "https://results.vtu.ac.in/" ++ site_path sc ++ u "/index.php" ∧
  result_url sc =
    u "https://results.vtu.ac.in/" ++ site_path sc ++ u "/resultpage.php".
Proof.
  intros sc. unfold sc, init. cbn [site_path index_url result_url].
  unfold strip_chars, strip. fold is_slash.
  destruct (strip_by_spec isspace site0) as (w1 & w2 & Hw & Hw1 & Hw2 & _).
  destruct (strip_by_spec is_slash (strip_by isspace site0))
    as (a & b & Hs & Ha & Hb & Hhead & Hlast).
  split; [|split; [|split; [|split]]].
  - exists w1, a, b, w2. split.
    + rewrite Hw at 1. rewrite Hs at 1. by rewrite <- !app_assoc.
    + split; [done|]. split; [done|].
      split; (eapply Forall_impl; [eassumption|]); intros c; apply is_slash_spec.
  - intros H. specialize (Hhead _ H). by vm_compute in Hhead.
  - intros H. specialize (Hlast _ H). by vm_compute in Hlast.
  - done.
  - done.
Qed.

(** X9. Whitespace around the site path and slashes around it make
    no difference: for a path that is not empty and has neither a slash
    nor whitespace at either end, the constructor builds the same object
    from the path wrapped in slashes and then in whitespace as from the
    path itself. *)
Theorem init_wrapped (w1 a core b w2 : list N) :
  Forall (holds isspace) w1 → Forall (holds isspace) w2 →
  Forall (fun c => c = 47%N) a → Forall (fun c => c = 47%N) b →
  (∃ c, head core = Some c ∧ isspace c = false ∧ c ≠ 47%N) →
  (∃ c, last core = Some c ∧ isspace c = false ∧ c ≠ 47%N) →
  init (w1 ++ a ++ core ++ b ++ w2) = init core ∧
  site_path (init core) = core.
Proof.
  intros Hw1 Hw2 Ha Hb (c1 & Hh & Hs1 & Hn1) (c2 & Hl & Hs2 & Hn2).
  assert (Hslash : ∀ l, Forall (fun c => c = 47%N) l → Forall (holds is_slash) l).
  { intros l Hall. eapply Forall_impl; [exact Hall|]. intros c. apply is_slash_spec. }
  assert (Hns : ∀ c, c ≠ 47%N → is_slash c = false).
  { intros c Hc. destruct (is_slash c) eqn:E; [|done].
    by apply is_slash_spec in E. }
  assert (Hcore : strip_chars (u "/") (strip core) = core).
  { unfold strip_chars, strip. fold is_slash.
    rewrite (strip_by_id isspace core).
    - apply strip_by_id; intros c Hc; apply Hns; congruence.
    - intros c Hc. congruence.
    - intros c Hc. congruence. }
  assert (Hwrap : strip_chars (u "/") (strip (w1 ++ a ++ core ++ b ++ w2)) = core).
  { unfold strip_chars, strip. fold is_slash.
    replace (w1 ++ a ++ core ++ b ++ w2) with (w1 ++ (a ++ core ++ b) ++ w2)
      by by rewrite <- !app_assoc.
    rewrite (strip_by_wrapped isspace w1 (a ++ core ++ b) w2); try done.
    - apply strip_by_wrapped; try by apply Hslash.
      + intros c Hc. apply Hns. congruence.
      + intros c Hc. apply Hns. congruence.
    - intros c Hc. destruct a as [|x a].
      + destruct core; simpl in *; [done|]. congruence.
      + apply Forall_cons in Ha as [-> _]. simpl in Hc. by simplify_eq.
    - intros c Hc. rewrite !app_assoc in Hc.
      destruct b as [|x b _] using rev_ind.
      + rewrite app_nil_r in Hc. rewrite last_app in Hc.
        rewrite Hl in Hc. by simplify_eq.
      + rewrite !app_assoc, last_snoc in Hc. simplify_eq.
        apply Forall_app in Hb as [_ Hb]. by apply Forall_singleton in Hb as ->. }
  split; [|exact Hcore].
  unfold init. by rewrite Hwrap, Hcore.
Qed.

Lemma init_wrapped_witness :
  init (u "  /JJEcbcs25/ ") = init (u "JJEcbcs25") ∧
  site_path (init (u "JJEcbcs25")) = u "JJEcbcs25".
Proof.
  apply (init_wrapped (u "  ") (u "/") (u "JJEcbcs25") (u "/") (u " ")).
  - by repeat (apply Forall_cons_2; [done|]).
  - by repeat (apply Forall_cons_2; [done|]).
  - by repeat (apply Forall_cons_2; [done|]).
  - by repeat (apply Forall_cons_2; [done|]).
  - exists 74%N. by repeat split.
  - exists 53%N. by repeat split.
Defined.

End ScraperMore.

(** * Further facts about the recognizer *)
Module TrOCRMore.
Import Py PyFacts TrOCRFacts ScraperMore.

Lemma elem_of_filter_bool (p : N → bool) (s : list N) (c : N) :
  c ∈ List.filter p s ↔ c ∈ s ∧ p c = true.
Proof. rewrite !list_elem_of_In. apply filter_In. Qed.

Lemma filter_id (p : N → bool) (s : list N) :
  (∀ c, c ∈ s → p c = true) → List.filter p s = s.
Proof.
  induction s as [|c s IH]; intros H; simpl; [done|].
  rewrite (H c) by by left. rewrite IH; [done|]. intros d Hd. apply H. by right.
Qed.

Lemma strip_no_space (s : list N) :
  (∀ c, c ∈ s → isspace c = false) → strip s = s.
Proof.
  intros H. apply strip_by_id; intros c Hc; apply H.
  - destruct s; simplify_eq/=. by left.
  - by apply last_Some_elem_of.
Qed.

(** What the post-processing leaves is neither a full stop nor
    whitespace. *)
Lemma postprocess_chars (text : list N) (c : N) :
  c ∈ TrOCR.postprocess text → c ≠ 46%N ∧ isspace c = false.
Proof.
  rewrite postprocess_filter, elem_of_filter_bool. intros [_ Hk]. revert Hk.
  unfold kept. rewrite andb_true_iff, !negb_true_iff.
  intros [Hd ->]. split; [|done]. by apply bool_decide_eq_false in Hd.
Qed.

(** X10. The text [run_ocr] returns holds no full stop and no
    whitespace; processing it again changes nothing, and so neither does
    the [strip()] the scraper applies to it. *)
Theorem run_ocr_text_clean (text : list N) :
  (∀ c, c ∈ TrOCR.postprocess text → c ≠ 46%N ∧ isspace c = false) ∧
  TrOCR.postprocess (TrOCR.postprocess text) = TrOCR.postprocess text ∧
  strip (TrOCR.postprocess text) = TrOCR.postprocess text ∧
  (length (TrOCR.postprocess text) ≤ length text)%nat.
Proof.
  split; [|split; [|split]].
  - apply postprocess_chars.
  - rewrite (postprocess_filter (TrOCR.postprocess text)). apply filter_id.
    intros c Hc. apply postprocess_chars in Hc as [Hd Hs].
    unfold kept. rewrite Hs. simpl. rewrite andb_true_r.
    apply negb_true_iff. by apply bool_decide_eq_false.
  - apply strip_no_space. intros c Hc. by apply postprocess_chars in Hc as [_ ?].
  - rewrite postprocess_filter. apply filter_length_le.
Qed.

(** One character of the table's images is no key of the table and no
    whitespace. *)
Lemma remap_image (c d : N) :
  isspace c = false → d ∈ TrOCRRunner.remap c →
  TrOCRRunner.SYMBOL_MAP !! d = None ∧ isspace d = false.
Proof.
  intros Hc. unfold TrOCRRunner.remap.
  destruct (TrOCRRunner.SYMBOL_MAP !! c) as [r|] eqn:E.
  - unfold TrOCRRunner.SYMBOL_MAP in E. apply elem_of_list_to_map_2 in E.
    do 16 (apply elem_of_cons in E as [E|E];
            [ injection E as -> ->; intros Hd%list_elem_of_In;
              vm_compute in Hd; intuition (subst; by vm_compute)
            | ]).
    by apply elem_of_nil in E.
  - intros Hd. apply list_elem_of_singleton in Hd as ->. done.
Qed.

Lemma remap_length (c : N) : (length (TrOCRRunner.remap c) ≤ 1)%nat.
Proof.
  unfold TrOCRRunner.remap.
  destruct (TrOCRRunner.SYMBOL_MAP !! c) as [r|] eqn:E; [|done].
  unfold TrOCRRunner.SYMBOL_MAP in E. apply elem_of_list_to_map_2 in E.
  do 16 (apply elem_of_cons in E as [E|E]; [injection E as _ ->; vm_compute; lia|]).
  by apply elem_of_nil in E.
Qed.

Lemma elem_of_bind_list (f : N → list N) (s : list N) (d : N) :
  d ∈ s ≫= f ↔ ∃ c, d ∈ f c ∧ c ∈ s.
Proof. apply list_elem_of_bind. Qed.

(** What the cleaning of a row leaves is no key of the table and no
    whitespace. *)
Lemma ocr_clean_chars (ocr_raw : list N) (d : N) :
  d ∈ TrOCRRunner.ocr_clean_of ocr_raw →
  TrOCRRunner.SYMBOL_MAP !! d = None ∧ isspace d = false.
Proof.
  rewrite ocr_clean_of_pointwise, elem_of_bind_list.
  intros (c & Hd & _). destruct (isspace c) eqn:Hc.
  - by apply elem_of_nil in Hd.
  - by apply (remap_image c).
Qed.

(** X11. The cleaned text of a row of the batch runner holds no
    character of the symbol table and no whitespace, cleaning it again
    changes nothing, and it is never longer than the text it comes
    from. *)
Theorem ocr_clean_free_of_symbols (ocr_raw : list N) :
  (∀ d, d ∈ TrOCRRunner.ocr_clean_of ocr_raw →
        TrOCRRunner.SYMBOL_MAP !! d = None ∧ isspace d = false) ∧
  TrOCRRunner.ocr_clean_of (TrOCRRunner.ocr_clean_of ocr_raw) =
    TrOCRRunner.ocr_clean_of ocr_raw ∧
  (length (TrOCRRunner.ocr_clean_of ocr_raw) ≤ length ocr_raw)%nat.
Proof.
  pose proof (ocr_clean_chars ocr_raw) as Hfree.
  split; [done|]. split.
  - rewrite (ocr_clean_of_pointwise (TrOCRRunner.ocr_clean_of ocr_raw)).
    induction (TrOCRRunner.ocr_clean_of ocr_raw) as [|d s IH]; [done|].
    change ((d :: s) ≫= ?f) with (f d ++ (s ≫= f)). cbv beta.
    destruct (Hfree d) as [Hmap Hsp]; [by left|].
    rewrite Hsp. unfold TrOCRRunner.remap at 1. rewrite Hmap. simpl.
    f_equal. apply IH. intros d' Hd'. apply Hfree. by right.
  - rewrite ocr_clean_of_pointwise. clear Hfree.
    induction ocr_raw as [|c s IH]; [done|].
    change ((c :: s) ≫= ?f) with (f c ++ (s ≫= f)). cbv beta.
    rewrite length_app. simpl length.
    pose proof (remap_length c).
    destruct (isspace c); [change (length (@nil N)) with 0%nat|]; lia.
Qed.

Lemma translate_delete_absent (table : gmap N (list N)) (k : N) (s : list N) :
  k ∉ s → translate (delete k table) s = translate table s.
Proof.
  induction s as [|c s IH]; intros Hk; [done|].
  rewrite !translate_cons. rewrite IH by (intros ?; apply Hk; by right).
  f_equal. rewrite lookup_delete_ne; [done|]. intros ->. apply Hk. by left.
Qed.

(** X12. In [process_file] the second removal of whitespace has
    nothing left to remove, and the full stop of the table never applies:
    on what [run_ocr] returns, the cleaned text is the character-wise
    image under the table. *)
Theorem process_file_clean (text : list N) :
  TrOCRRunner.ocr_clean_of (TrOCRRunner.postprocess text) =
  translate TrOCRRunner.SYMBOL_MAP (TrOCRRunner.postprocess text) ∧
  TrOCRRunner.ocr_clean_of (TrOCRRunner.postprocess text) =
  translate (delete 46%N TrOCRRunner.SYMBOL_MAP) (TrOCRRunner.postprocess text).
Proof.
  change (TrOCRRunner.postprocess text) with (TrOCR.postprocess text).
  pose proof (postprocess_chars text) as Hclean.
  assert (E : TrOCRRunner.ocr_clean_of (TrOCR.postprocess text) =
              translate TrOCRRunner.SYMBOL_MAP (TrOCR.postprocess text)).
  { unfold TrOCRRunner.ocr_clean_of. rewrite join_split, filter_id; [done|].
    intros c Hc. destruct (Hclean c Hc) as [_ ->]. done. }
  split; [done|]. rewrite E. symmetry. apply translate_delete_absent.
  intros Hin. by destruct (Hclean _ Hin) as [? _].
Qed.

(** X13. Without CUDA the runner never selects a device other than
    a CPU: the name it hands to [torch.device] then holds [cpu].  With
    CUDA, a device that is asked for is the one selected. *)
Theorem select_device_cpu (device : option (list N)) (d : list N) :
  contains (u "cpu") (TrOCRRunner.select_device device false) = true ∧
  (d ≠ [] → TrOCRRunner.select_device (Some d) true = d) ∧
  TrOCRRunner.select_device None true = u "cuda" ∧
  TrOCRRunner.select_device (Some []) true = u "cuda".
Proof.
  split; [|split; [|done]].
  - destruct device as [[|c d']|]; unfold TrOCRRunner.select_device;
      [by vm_compute| |by vm_compute].
    cbn [orb].
    destruct (contains (u "cpu") (c :: d')) eqn:E; [exact E | by vm_compute].
  - intros Hd. by destruct d.
Qed.

(** X14. The row [process_file] returns: its cleaned text is the
    cleaning of its raw text, and its match flag is 1 exactly when the
    image could be opened and the cleaned text equals the expected text.
    A file whose expected text holds whitespace or a character of the
    symbol table is therefore never reported as a match, and a file that
    cannot be opened gives the row with empty texts and flag 0. *)
Theorem process_file_row {image : Type} (enable_clean : bool)
    (clean_fn : image → outcome image) (recognize : image → list N)
    (name stem : list N) (opened : outcome image) (r : TrOCRRunner.row) :
  TrOCRRunner.process_file enable_clean clean_fn recognize name stem opened = Ok r →
  TrOCRRunner.file r = name ∧ TrOCRRunner.expected r = stem ∧
  TrOCRRunner.clean r = TrOCRRunner.ocr_clean_of (TrOCRRunner.ocr r) ∧
  (TrOCRRunner.matched r = 1%Z ↔
   (∃ img, opened = Ok img) ∧ TrOCRRunner.clean r = stem) ∧
  (TrOCRRunner.matched r = 0%Z ↔
   ¬ ((∃ img, opened = Ok img) ∧ TrOCRRunner.clean r = stem)) ∧
  (∀ c, c ∈ stem →
        TrOCRRunner.SYMBOL_MAP !! c ≠ None ∨ isspace c = true →
        TrOCRRunner.matched r = 0%Z) ∧
  (∀ e, opened = Raise e → r = TrOCRRunner.Row name stem [] [] 0).
Proof.
  unfold TrOCRRunner.process_file. destruct opened as [img|e].
  - destruct (TrOCRRunner.run_ocr enable_clean clean_fn recognize img)
      as [ocr_raw|e]; [|done].
    intros [= <-]. simpl.
    split; [done|]. split; [done|]. split; [done|].
    case_bool_decide as Heq; simpl.
    + split; [split; [intros _; split; [by eexists | done] | done]|].
      split; [split; [done | intros Hn; destruct Hn; split; [by eexists | done]]|].
      split; [|done].
      intros c Hc Hbad. exfalso. rewrite <- Heq in Hc.
      apply ocr_clean_chars in Hc as [Hmap Hsp].
      destruct Hbad as [Hbad|Hbad]; [done | congruence].
    + split; [split; [done | by intros [_ ?]]|].
      split; [split; [by intros _ [_ ?] | done]|].
      split; [done|]. done.
  - intros [= <-]. simpl.
    split; [done|]. split; [done|]. split; [done|].
    split; [split; [done | by intros [[img [=]] _]]|].
    split; [split; [by intros _ [[img [=]] _] | done]|].
    split; [done|]. by intros e' _.
Qed.

Lemma process_file_row_witness :
  let r := TrOCRRunner.Row (u "A@3.png") (u "A@3") (u "A@3") (u "AA3") 0 in
  TrOCRRunner.file r = u "A@3.png" ∧ TrOCRRunner.expected r = u "A@3" ∧
  TrOCRRunner.clean r = TrOCRRunner.ocr_clean_of (TrOCRRunner.ocr r) ∧
  (TrOCRRunner.matched r = 1%Z ↔
   (∃ img : unit, Ok tt = Ok img) ∧ TrOCRRunner.clean r = u "A@3") ∧
  (TrOCRRunner.matched r = 0%Z ↔
   ¬ ((∃ img : unit, Ok tt = Ok img) ∧ TrOCRRunner.clean r = u "A@3")) ∧
  (∀ c, c ∈ u "A@3" →
        TrOCRRunner.SYMBOL_MAP !! c ≠ None ∨ isspace c = true →
        TrOCRRunner.matched r = 0%Z) ∧
  (∀ e, Ok tt = Raise e → r = TrOCRRunner.Row (u "A@3.png") (u "A@3") [] [] 0).
Proof.
  apply (process_file_row true (fun img : unit => Ok img)
           (fun _ => u "A @ 3.") (u "A@3.png") (u "A@3") (Ok tt)).
  by vm_compute.
Defined.

(** X15. The scraper with [run_ocr] of [services/TrOCR.py] never
    submits a CAPTCHA code that holds whitespace or a full stop: the code
    of every submission is the empty default, or the post-processed text
    of the model, which the [strip()] leaves as it is. *)
Theorem submitted_code_clean {image : Type} (transport : nat → Scraper.exchange)
    (find_token : list N → option (option (list N)))
    (Image_open : list Z → outcome image)
    (clean : image → outcome (list (list Z)))
    (recognize : list (list Z) → list N)
    (lns0 : list N) (st : Scraper.state) :
  ∃ v st' ev,
    Scraper.run transport find_token Image_open (TrOCR.run_ocr clean recognize)
                lns0 st = (Ok v, st') ∧
    Scraper.trace st' = Scraper.trace st ++ ev ∧
    ∀ url cks data, Scraper.Post url cks data ∈ ev →
      (∀ c, c ∈ Scraper.captchacode data → c ≠ 46%N ∧ isspace c = false) ∧
      (Scraper.captchacode data = [] ∨
       ∃ cleaned, Scraper.captchacode data = TrOCR.postprocess (recognize cleaned)).
Proof.
  destruct (run_post_code transport find_token Image_open
              (TrOCR.run_ocr clean recognize) lns0 st)
    as (v & st' & ev & Hrun & Htrace & Hcode).
  exists v, st', ev. split; [done|]. split; [done|].
  intros url cks data Hin.
  destruct (Hcode url cks data Hin) as [-> | (img & t & Ht & ->)].
  - split; [|by left]. intros c Hc. by apply elem_of_nil in Hc.
  - unfold TrOCR.run_ocr in Ht. destruct (clean img) as [cleaned|e]; [|done].
    injection Ht as <-.
    rewrite strip_no_space
      by (intros c Hc; by apply postprocess_chars in Hc as [_ ?]).
    split; [apply postprocess_chars|]. right. by exists cleaned.
Qed.

End TrOCRMore.

(** * Further facts about the image cleaner *)
Module GrayMore.
Import Py Gray GrayFacts.
Local Open Scope Z_scope.

(** ** The threshold in integers *)

(** A sample lies below (mean + minimum) / 2 exactly when
    [(2 p - m) N < S], for the sum [S] of the [N] samples. *)
Lemma below_threshold_int (p m S N : Z) :
  0 < N →
  (inject_Z p < (inject_Z S / inject_Z N + inject_Z m) / 2)%Q ↔ (2 * p - m) * N < S.
Proof.
  intros HN.
  set (x := (inject_Z S / inject_Z N)%Q).
  set (k := 2 * p - m).
  assert (Hk : (inject_Z k == 2 * inject_Z p - inject_Z m)%Q).
  { unfold k. rewrite <- Z.add_opp_r, inject_Z_plus, inject_Z_opp, inject_Z_mult.
    ring. }
  destruct (Z_lt_le_dec (k * N) S) as [Hlt|Hge].
  - assert (Hx : (inject_Z k < x)%Q).
    { apply Qlt_shift_div_l.
      - change 0%Q with (inject_Z 0). rewrite <- Zlt_Qlt. lia.
      - rewrite <- inject_Z_mult, <- Zlt_Qlt. lia. }
    clearbody x k. split; intros _; [done | qlra].
  - assert (Hx : (x <= inject_Z k)%Q) by (apply div_upper; lia).
    clearbody x k. split; intros H; [qlra | lia].
Qed.

Lemma elem_of_get2 (arr : list (list Z)) (i j : nat) (p : Z) :
  get2 arr i j = Some p → p ∈ concat arr.
Proof.
  unfold get2. intros Hp.
  destruct (arr !! i) as [r|] eqn:Hr; [|done]. simpl in Hp.
  apply elem_of_concat. exists r.
  split; by eapply list_elem_of_lookup_2.
Qed.

Lemma uint8_range (arr : list (list Z)) (y : Z) :
  is_uint8 arr → y ∈ concat arr → 0 ≤ y ≤ 255.
Proof.
  intros Hu8 Hy. apply elem_of_concat in Hy as (r & Hyr & Hr).
  unfold is_uint8 in Hu8. rewrite Forall_forall in Hu8.
  specialize (Hu8 r Hr). rewrite Forall_forall in Hu8. by apply Hu8.
Qed.

(** The mask entry of a pixel, in integers: whatever the rounding of
    binary64 does to the threshold, the pixel [p] is foreground exactly
    when [(2 p - min) N < sum]. *)
Lemma mask_entry_int (rnd : Q → Q) (arr : list (list Z)) (h w : nat)
    (m : Z) (t : Q) (i j : nat) (p : Z) :
  binary64_rounding rnd →
  rect h w arr → is_uint8 arr →
  (1 ≤ h)%nat → (1 ≤ w)%nat → Z.of_nat (h * w) ≤ 2 ^ 44 →
  np_min arr = Ok m → threshold_of rnd arr = Ok t →
  get2 arr i j = Some p →
  get2 (to_mask (binarize arr t)) i j =
  Some (Z.b2z ((2 * p - m) * Z.of_nat (h * w) <? sum_row (concat arr))).
Proof.
  intros Hrnd Hrect Hu8 Hh Hw Hsize Hm Ht Hp.
  destruct (np_min_rect h w arr Hrect Hh Hw) as (m' & Hm' & Hin & Hle).
  assert (m' = m) as -> by congruence.
  unfold threshold_of in Ht. rewrite Hm in Ht. injection Ht as <-.
  unfold np_mean. rewrite np_sum_concat, (np_size_rect h w) by done.
  rewrite get2_mask, Hp. simpl. f_equal. f_equal.
  assert (HN : 0 < Z.of_nat (h * w)) by nia.
  match goal with |- Qltb ?a ?b = _ => destruct (Qltb a b) eqn:E end.
  - apply Qltb_lt in E.
    apply (threshold_robust rnd Hrnd) in E;
      [| eapply uint8_range, elem_of_get2; done
       | by eapply uint8_range | lia].
    apply below_threshold_int in E; [|done]. symmetry. by apply Z.ltb_lt.
  - symmetry. apply Z.ltb_ge. apply Z.nlt_ge. intros Hlt.
    apply (below_threshold_int p m _ _ HN) in Hlt.
    apply (threshold_robust rnd Hrnd) in Hlt;
      [| eapply uint8_range, elem_of_get2; done
       | by eapply uint8_range | lia].
    apply Qltb_lt in Hlt. congruence.
Qed.


(** Arrays of one shape with the same entries are the same array. *)
Lemma get2_ext (h w : nat) (a b : list (list Z)) :
  rect h w a → rect h w b →
  (∀ i j, (i < h)%nat → (j < w)%nat → get2 a i j = get2 b i j) →
  a = b.
Proof.
  intros [Ha Hwa] [Hb Hwb] H. apply list_eq. intros i.
  destruct (decide (i < h)%nat) as [Hi|Hi].
  - destruct (lookup_lt_is_Some_2 a i) as [ra Hra]; [lia|].
    destruct (lookup_lt_is_Some_2 b i) as [rb Hrb]; [lia|].
    rewrite Hra, Hrb. f_equal. apply list_eq. intros j.
    rewrite Forall_lookup in Hwa. rewrite Forall_lookup in Hwb.
    pose proof (Hwa i ra Hra) as La. pose proof (Hwb i rb Hrb) as Lb.
    simpl in La, Lb.
    destruct (decide (j < w)%nat) as [Hj|Hj].
    + specialize (H i j Hi Hj). unfold get2 in H. by rewrite Hra, Hrb in H.
    + rewrite !lookup_ge_None_2 by lia. done.
  - rewrite !lookup_ge_None_2 by lia. done.
Qed.

Lemma rect_replicate (h w : nat) (v : Z) : rect h w (replicate h (replicate w v)).
Proof.
  split; [apply length_replicate|].
  apply Forall_replicate, length_replicate.
Qed.

Lemma get2_replicate (h w i j : nat) (v : Z) :
  (i < h)%nat → (j < w)%nat → get2 (replicate h (replicate w v)) i j = Some v.
Proof.
  intros Hi Hj. unfold get2. rewrite lookup_replicate_2 by done. simpl.
  by rewrite lookup_replicate_2.
Qed.

(** The cleaned image of an array whose votes all fail is white. *)
Lemma all_white (arr : list (list Z)) (t : Q) (h w : nat) :
  rect h w arr →
  (∀ i j, (i < h)%nat → (j < w)%nat →
          foreground_count (to_mask (binarize arr t)) i j < 5) →
  render (majority_filter (to_mask (binarize arr t))) =
  replicate h (replicate w 255).
Proof.
  intros Hrect H. apply (get2_ext h w).
  - by apply rect_clean.
  - apply rect_replicate.
  - intros i j Hi Hj. rewrite (get2_clean arr t h w), get2_replicate by done.
    specialize (H i j Hi Hj).
    destruct (5 <=? _) eqn:E; [apply Z.leb_le in E; lia | done].
Qed.

(** ** Sums against the minimum *)

Lemma sum_row_lower (m : Z) (l : list Z) :
  Forall (fun y => m ≤ y) l → m * Z.of_nat (length l) ≤ sum_row l.
Proof.
  induction 1 as [|y l Hy _ IH]; simpl; [lia|].
  unfold sum_row in *. simpl. lia.
Qed.

Lemma sum_row_strict (m : Z) (l : list Z) :
  Forall (fun y => m ≤ y) l →
  m * Z.of_nat (length l) < sum_row l ↔ Exists (fun y => m < y) l.
Proof.
  induction 1 as [|y l Hy Hl IH].
  - simpl. rewrite Exists_nil. unfold sum_row. simpl. lia.
  - rewrite Exists_cons.
    pose proof (sum_row_lower m l Hl) as Hlow.
    unfold sum_row in *. simpl length. simpl foldr. split.
    + intros Hlt. destruct (decide (m < y)) as [?|Hn]; [by left|].
      right. apply IH. lia.
    + intros [Hlt|Hex]; [lia|]. apply IH in Hex. lia.
Qed.

Lemma sum_row_const (c : Z) (l : list Z) :
  Forall (fun y => y = c) l → sum_row l = c * Z.of_nat (length l).
Proof.
  induction 1 as [|y l -> _ IH]; unfold sum_row in *; simpl length; simpl foldr; lia.
Qed.

Lemma Forall_concat_rows (P : Z → Prop) (a : list (list Z)) :
  Forall (Forall P) a → Forall P (concat a).
Proof.
  induction 1 as [|r a Hr _ IH]; simpl; [apply Forall_nil_2|].
  apply Forall_app. done.
Qed.

Lemma mean_le_int (S N p : Z) :
  0 < N → (inject_Z S / inject_Z N <= inject_Z p)%Q → S ≤ p * N.
Proof.
  intros HN Hle. destruct (Z_lt_le_dec (p * N) S) as [Hlt|]; [|done].
  assert (Hx : (inject_Z p < inject_Z S / inject_Z N)%Q).
  { apply Qlt_shift_div_l.
    - change 0%Q with (inject_Z 0). rewrite <- Zlt_Qlt. lia.
    - rewrite <- inject_Z_mult, <- Zlt_Qlt. lia. }
  by apply Qlt_not_le in Hx.
Qed.

(** ** Edge behaviour of the cleaner *)


(** In an image of height 1 or width 1 a 3x3 neighbourhood holds at most
    three pixels of the image. *)
Lemma thin_count (h w : nat) (mask : list (list Z)) (i j : nat) :
  rect h w mask → is_mask mask →
  h = 1%nat ∨ w = 1%nat → (i < h)%nat → (j < w)%nat →
  foreground_count mask i j ≤ 3.
Proof.
  intros Hrect Hm Hthin Hi Hj. unfold foreground_count.
  rewrite <- sum_row_count by by apply neighbourhood_01.
  unfold neighbourhood, sum_row. simpl.
  pose proof (padded_01 mask i j Hm).
  pose proof (padded_01 mask i (j + 1) Hm).
  pose proof (padded_01 mask i (j + 2) Hm).
  pose proof (padded_01 mask (i + 1) j Hm).
  pose proof (padded_01 mask (i + 1) (j + 1) Hm).
  pose proof (padded_01 mask (i + 1) (j + 2) Hm).
  pose proof (padded_01 mask (i + 2) j Hm).
  pose proof (padded_01 mask (i + 2) (j + 1) Hm).
  pose proof (padded_01 mask (i + 2) (j + 2) Hm).
  destruct Hthin as [Hh|Hw].
  - rewrite (padded_border h w mask i j), (padded_border h w mask i (j + 1)),
      (padded_border h w mask i (j + 2)), (padded_border h w mask (i + 2) j),
      (padded_border h w mask (i + 2) (j + 1)),
      (padded_border h w mask (i + 2) (j + 2)) by (done || lia). lia.
  - rewrite (padded_border h w mask i j), (padded_border h w mask (i + 1) j),
      (padded_border h w mask (i + 2) j), (padded_border h w mask i (j + 2)),
      (padded_border h w mask (i + 1) (j + 2)),
      (padded_border h w mask (i + 2) (j + 2)) by (done || lia). lia.
Qed.

(** X17. An image of height 1 or of width 1 is cleaned to an all-white
    image, whatever its pixels: no vote can reach five. *)
Theorem thin_image_white (rnd : Q → Q) (arr : list (list Z)) (h w : nat) :
  rect h w arr → (1 ≤ h)%nat → (1 ≤ w)%nat → h = 1%nat ∨ w = 1%nat →
  clean_array rnd arr = Ok (replicate h (replicate w 255)).
Proof.
  intros Hrect Hh Hw Hthin.
  destruct (clean_array_ok rnd arr h w Hrect Hh Hw) as (m & t & _ & _ & _ & ->).
  f_equal. apply all_white; [done|]. intros i j Hi Hj.
  assert (foreground_count (to_mask (binarize arr t)) i j ≤ 3); [|lia].
  apply (thin_count h w); [|apply to_mask_is_mask|done..].
  by do 2 apply rect_elementwise.
Qed.

Lemma thin_image_white_witness :
  clean_array exact [[0; 255; 0; 0; 255; 0]] = Ok (replicate 1 (replicate 6 255)).
Proof.
  apply (thin_image_white exact [[0; 255; 0; 0; 255; 0]] 1 6);
    [prove_rect | lia | lia | by left].
Defined.


(** ** What the threshold selects *)

Lemma min_lower (arr : list (list Z)) (m : Z) :
  (∀ y, y ∈ concat arr → m ≤ y) → Forall (fun y => m ≤ y) (concat arr).
Proof. intros H. by apply Forall_forall. Qed.

(** X18. A pixel at or above the mean of the image is background in the
    mask, whatever the rounding: the threshold (mean + minimum) / 2 never
    exceeds the mean. *)
Theorem at_or_above_mean_background (rnd : Q → Q) (arr : list (list Z))
    (h w i j : nat) (p : Z) :
  binary64_rounding rnd →
  rect h w arr → is_uint8 arr →
  (1 ≤ h)%nat → (1 ≤ w)%nat → Z.of_nat (h * w) ≤ 2 ^ 44 →
  get2 arr i j = Some p → (np_mean exact arr <= inject_Z p)%Q →
  ∃ t, threshold_of rnd arr = Ok t ∧
       get2 (to_mask (binarize arr t)) i j = Some 0.
Proof.
  intros Hrnd Hrect Hu8 Hh Hw Hsize Hp Hmean.
  destruct (np_min_rect h w arr Hrect Hh Hw) as (m & Hm & Hin & Hle).
  destruct (clean_array_ok rnd arr h w Hrect Hh Hw) as (m' & t & Hm' & _ & Ht & _).
  exists t. split; [done|].
  rewrite (mask_entry_int rnd arr h w m t i j p) by done.
  assert (HN : 0 < Z.of_nat (h * w)) by nia.
  unfold np_mean, exact in Hmean.
  rewrite np_sum_concat, (np_size_rect h w) in Hmean by done.
  apply mean_le_int in Hmean; [|done].
  pose proof (sum_row_lower m (concat arr) (min_lower arr m Hle)) as Hlow.
  rewrite (length_concat_rect h w) in Hlow by done.
  destruct (Z.ltb_spec ((2 * p - m) * Z.of_nat (h * w)) (sum_row (concat arr)));
    [nia | done].
Qed.

Lemma at_or_above_mean_background_witness :
  ∃ t, threshold_of exact [[10; 200]; [200; 30]] = Ok t ∧
       get2 (to_mask (binarize [[10; 200]; [200; 30]] t)) 0 1 = Some 0.
Proof.
  apply (at_or_above_mean_background exact [[10; 200]; [200; 30]] 2 2 0 1 200);
    [apply exact_rounding | prove_rect | prove_uint8 | lia | lia | done | done
    | by vm_compute].
Defined.

(** X19. A pixel holding the minimum of the image is foreground in the
    mask exactly when the image is not constant. *)
Theorem darkest_pixel_foreground (rnd : Q → Q) (arr : list (list Z))
    (h w i j : nat) (m : Z) :
  binary64_rounding rnd →
  rect h w arr → is_uint8 arr →
  (1 ≤ h)%nat → (1 ≤ w)%nat → Z.of_nat (h * w) ≤ 2 ^ 44 →
  np_min arr = Ok m → get2 arr i j = Some m →
  ∃ t, threshold_of rnd arr = Ok t ∧
       (get2 (to_mask (binarize arr t)) i j = Some 1 ↔
        ∃ y, y ∈ concat arr ∧ y ≠ m) ∧
       (get2 (to_mask (binarize arr t)) i j = Some 0 ↔
        ∀ y, y ∈ concat arr → y = m).
Proof.
  intros Hrnd Hrect Hu8 Hh Hw Hsize Hm Hp.
  destruct (np_min_rect h w arr Hrect Hh Hw) as (m' & Hm' & Hin & Hle).
  assert (m' = m) as -> by congruence.
  destruct (clean_array_ok rnd arr h w Hrect Hh Hw) as (m' & t & _ & _ & Ht & _).
  exists t. split; [done|].
  rewrite (mask_entry_int rnd arr h w m t i j m) by done.
  pose proof (sum_row_strict m (concat arr) (min_lower arr m Hle)) as Hs.
  rewrite (length_concat_rect h w) in Hs by done.
  rewrite Exists_exists in Hs.
  replace ((2 * m - m) * Z.of_nat (h * w)) with (m * Z.of_nat (h * w)) by lia.
  destruct (Z.ltb_spec (m * Z.of_nat (h * w)) (sum_row (concat arr))) as [Hlt|Hge];
    simpl.
  - apply Hs in Hlt as (y & Hy & Hlt). split; split.
    + intros _. exists y. split; [done | lia].
    + done.
    + done.
    + intros Hall. specialize (Hall y Hy). lia.
  - split; split.
    + done.
    + intros (y & Hy & Hne). exfalso.
      assert (m * Z.of_nat (h * w) < sum_row (concat arr)); [|lia].
      apply Hs. exists y. split; [done|]. specialize (Hle y Hy). lia.
    + intros _ y Hy. destruct (decide (y = m)) as [|Hne]; [done|]. exfalso.
      assert (m * Z.of_nat (h * w) < sum_row (concat arr)); [|lia].
      apply Hs. exists y. split; [done|]. specialize (Hle y Hy). lia.
    + done.
Qed.

Lemma darkest_pixel_foreground_witness :
  ∃ t, threshold_of exact [[10; 200]; [200; 30]] = Ok t ∧
       (get2 (to_mask (binarize [[10; 200]; [200; 30]] t)) 0 0 = Some 1 ↔
        ∃ y, y ∈ concat [[10; 200]; [200; 30]] ∧ y ≠ 10) ∧
       (get2 (to_mask (binarize [[10; 200]; [200; 30]] t)) 0 0 = Some 0 ↔
        ∀ y, y ∈ concat [[10; 200]; [200; 30]] → y = 10).
Proof.
  apply (darkest_pixel_foreground exact [[10; 200]; [200; 30]] 2 2 0 0 10);
    [apply exact_rounding | prove_rect | prove_uint8 | lia | lia | done
    | reflexivity | reflexivity].
Defined.

Lemma zero_mask_count (mask : list (list Z)) (i j : nat) :
  (∀ a b, at2 mask a b = 0) → foreground_count mask i j = 0.
Proof.
  intros H.
  assert (P : ∀ a b, padded mask a b = 0) by (intros [|a] [|b]; simpl; auto).
  unfold foreground_count, neighbourhood. rewrite !P. done.
Qed.

(** X20. An image whose pixels all hold one value is cleaned to an
    all-white image: the threshold equals that value and no pixel is
    strictly below it. *)
Theorem constant_image_white (rnd : Q → Q) (arr : list (list Z))
    (h w : nat) (c : Z) :
  binary64_rounding rnd →
  rect h w arr → (1 ≤ h)%nat → (1 ≤ w)%nat → Z.of_nat (h * w) ≤ 2 ^ 44 →
  0 ≤ c ≤ 255 → Forall (Forall (fun v => v = c)) arr →
  clean_array rnd arr = Ok (replicate h (replicate w 255)).
Proof.
  intros Hrnd Hrect Hh Hw Hsize Hc Hconst.
  assert (Hu8 : is_uint8 arr).
  { unfold is_uint8. eapply Forall_impl; [exact Hconst|]. intros r Hr.
    eapply Forall_impl; [exact Hr|]. simpl. intros v ->. done. }
  pose proof (Forall_concat_rows _ _ Hconst) as Hall.
  destruct (np_min_rect h w arr Hrect Hh Hw) as (m & Hm & Hin & Hle).
  destruct (clean_array_ok rnd arr h w Hrect Hh Hw) as (m' & t & _ & _ & Ht & ->).
  assert (m = c) as ->.
  { rewrite Forall_forall in Hall. by apply Hall. }
  pose proof (sum_row_const c (concat arr) Hall) as Hsum.
  rewrite (length_concat_rect h w) in Hsum by done.
  f_equal. apply all_white; [done|]. intros i j Hi Hj.
  rewrite zero_mask_count; [lia|]. intros a b. unfold at2.
  destruct (get2 arr a b) as [p|] eqn:Hp.
  - rewrite (mask_entry_int rnd arr h w c t a b p) by done.
    assert (p = c) as ->.
    { rewrite Forall_forall in Hall. by eapply Hall, elem_of_get2. }
    rewrite Hsum. simpl.
    destruct (Z.ltb_spec ((2 * c - c) * Z.of_nat (h * w)) (c * Z.of_nat (h * w)));
      [lia | done].
  - by rewrite get2_mask, Hp.
Qed.

Lemma constant_image_white_witness :
  clean_array exact [[7; 7; 7]; [7; 7; 7]; [7; 7; 7]] =
  Ok (replicate 3 (replicate 3 255)).
Proof.
  apply (constant_image_white exact [[7; 7; 7]; [7; 7; 7]; [7; 7; 7]] 3 3 7);
    [apply exact_rounding | prove_rect | lia | lia | done | lia
    | repeat first [apply Forall_nil_2 | apply Forall_cons_2 | reflexivity]].
Defined.

(** ** The majority vote is monotone *)

Lemma padded_le (mask mask' : list (list Z)) (a b : nat) :
  (∀ i j, at2 mask i j ≤ at2 mask' i j) → padded mask a b ≤ padded mask' a b.
Proof. intros H. destruct a, b; simpl; (done || apply H). Qed.

(** X21. Adding foreground to a mask never removes foreground from the
    vote's result: the majority filter is monotone in the mask. *)
Theorem majority_filter_monotone (mask mask' : list (list Z)) (h w : nat) :
  rect h w mask → rect h w mask' →
  (∀ i j, at2 mask i j ≤ at2 mask' i j) →
  ∀ i j, at2 (majority_filter mask) i j ≤ at2 (majority_filter mask') i j.
Proof.
  intros Hrect Hrect' Hle i j.
  destruct (decide ((i < h)%nat ∧ (j < w)%nat)) as [[Hi Hj]|Hout].
  - unfold at2. rewrite !(majority_filter_get2 h w) by done. simpl.
    unfold vote. rewrite !window_sum_padded.
    unfold neighbourhood, sum_row. simpl.
    pose proof (padded_le mask mask' i j Hle).
    pose proof (padded_le mask mask' i (j + 1) Hle).
    pose proof (padded_le mask mask' i (j + 2) Hle).
    pose proof (padded_le mask mask' (i + 1) j Hle).
    pose proof (padded_le mask mask' (i + 1) (j + 1) Hle).
    pose proof (padded_le mask mask' (i + 1) (j + 2) Hle).
    pose proof (padded_le mask mask' (i + 2) j Hle).
    pose proof (padded_le mask mask' (i + 2) (j + 1) Hle).
    pose proof (padded_le mask mask' (i + 2) (j + 2) Hle).
    repeat match goal with |- context [5 <=? ?s] =>
      destruct (Z.leb_spec 5 s) end; lia.
  - rewrite !(at2_outside h w) by (by apply majority_filter_rect || lia). done.
Qed.

Lemma majority_filter_monotone_witness :
  let mask := [[1; 1; 0]; [1; 0; 0]; [0; 0; 0]] in
  let mask' := [[1; 1; 0]; [1; 1; 0]; [0; 1; 0]] in
  at2 (majority_filter mask) 1 1 ≤ at2 (majority_filter mask') 1 1 ∧
  at2 (majority_filter mask) 0 0 ≤ at2 (majority_filter mask') 0 0.
Proof.
  assert (H : ∀ i j, at2 [[1; 1; 0]; [1; 0; 0]; [0; 0; 0]] i j ≤
                     at2 [[1; 1; 0]; [1; 1; 0]; [0; 1; 0]] i j)
    by (intros [|[|[|i]]] [|[|[|j]]]; by vm_compute).
  split; apply (majority_filter_monotone _ _ 3 3); (prove_rect || exact H).
Defined.

(** ** Uniform brightness *)

Lemma concat_elementwise (g : Z → Z) (a : list (list Z)) :
  concat (elementwise g a) = g <$> concat a.
Proof.
  induction a as [|r a IH]; [done|].
  change (elementwise g (r :: a)) with ((g <$> r) :: elementwise g a).
  simpl concat. by rewrite fmap_app, IH.
Qed.

Lemma sum_row_shift (k : Z) (l : list Z) :
  sum_row ((fun p => p + k) <$> l) = sum_row l + k * Z.of_nat (length l).
Proof.
  induction l as [|x l IH]; [unfold sum_row; simpl; lia|].
  rewrite fmap_cons.
  change (sum_row (?a :: ?r)) with (a + sum_row r).
  rewrite IH, length_cons. lia.
Qed.

(** X22. Adding one constant to every pixel (the samples staying within
    8 bits) does not change the cleaned image: the threshold moves with
    the pixels. *)
Theorem brightness_shift_invariant (rnd : Q → Q) (arr : list (list Z))
    (h w : nat) (k : Z) :
  binary64_rounding rnd →
  rect h w arr → is_uint8 arr → is_uint8 (elementwise (fun p => p + k) arr) →
  (1 ≤ h)%nat → (1 ≤ w)%nat → Z.of_nat (h * w) ≤ 2 ^ 44 →
  clean_array rnd (elementwise (fun p => p + k) arr) = clean_array rnd arr.
Proof.
  intros Hrnd Hrect Hu8 Hu8' Hh Hw Hsize.
  set (arr' := elementwise (fun p => p + k) arr) in *.
  assert (Hrect' : rect h w arr') by by apply rect_elementwise.
  destruct (np_min_rect h w arr Hrect Hh Hw) as (m & Hm & Hin & Hle).
  destruct (np_min_rect h w arr' Hrect' Hh Hw) as (m' & Hm' & Hin' & Hle').
  destruct (clean_array_ok rnd arr h w Hrect Hh Hw) as (? & t & _ & _ & Ht & ->).
  destruct (clean_array_ok rnd arr' h w Hrect' Hh Hw) as (? & t' & _ & _ & Ht' & ->).
  assert (Hcat : concat arr' = (fun p => p + k) <$> concat arr)
    by apply concat_elementwise.
  assert (m' = m + k) as ->.
  { apply Z.le_antisymm.
    - apply Hle'. rewrite Hcat. apply list_elem_of_fmap. by exists m.
    - rewrite Hcat in Hin'. apply list_elem_of_fmap in Hin' as (y & -> & Hy).
      specialize (Hle y Hy). lia. }
  assert (Hsum : sum_row (concat arr') =
                 sum_row (concat arr) + k * Z.of_nat (h * w)).
  { rewrite Hcat, sum_row_shift, (length_concat_rect h w) by done. done. }
  do 3 f_equal. apply (get2_ext h w); [by do 2 apply rect_elementwise..|].
  intros i j Hi Hj.
  destruct (get2_rect_Some h w arr i j Hrect Hi Hj) as [p Hp].
  assert (Hp' : get2 arr' i j = Some (p + k)).
  { unfold arr'. by rewrite get2_elementwise, Hp. }
  rewrite (mask_entry_int rnd arr' h w (m + k) t' i j (p + k)) by done.
  rewrite (mask_entry_int rnd arr h w m t i j p) by done.
  rewrite Hsum. do 2 f_equal.
  destruct (Z.ltb_spec ((2 * (p + k) - (m + k)) * Z.of_nat (h * w))
                       (sum_row (concat arr) + k * Z.of_nat (h * w)));
  destruct (Z.ltb_spec ((2 * p - m) * Z.of_nat (h * w)) (sum_row (concat arr)));
    (done || nia).
Qed.

Lemma brightness_shift_invariant_witness :
  clean_array exact (elementwise (fun p => p + 40) [[10; 200]; [200; 30]]) =
  clean_array exact [[10; 200]; [200; 30]].
Proof.
  apply (brightness_shift_invariant exact [[10; 200]; [200; 30]] 2 2 40);
    [apply exact_rounding | prove_rect | prove_uint8
    | simpl; prove_uint8 | lia | lia | done].
Defined.

End GrayMore.
